(** * Blog API: seed generator, listing query and single-post lookup

    A shallow embedding of [main.py] (the FastAPI handlers [seed_posts],
    [list_posts] and [get_post]) together with a small model of the document
    collection they talk to, and the properties of the written specification
    that are established for them.

    Conventions.
    - Python [int] is [Z]; [//] and [%] are [Z.div] and [Z.modulo] (both
      round towards minus infinity, as Python does).
    - Python [str] is [string], the bytes of its UTF-8 encoding; case
      folding maps [A-Z] to [a-z], so statements about case are made for
      ASCII text.
    - A Python [dict] used as a document is a [gmap string value].
    - A [datetime] is the number of microseconds since the epoch. *)

From Stdlib Require Import ZArith Ascii String HexadecimalString.
From stdpp Require Import base numbers list strings gmap sorting pretty.

Local Open Scope Z_scope.

(** ** Text primitives *)

Module Text.

Definition LF : ascii := "010"%char.

(** [str(i)] for an [int]. *)
Definition str (i : Z) : string := pretty i.

Fixpoint repeat_char (n : nat) (c : ascii) : string :=
  match n with
  | O => EmptyString
  | S n' => String c (repeat_char n' c)
  end.

Definition is_sign (c : ascii) : bool :=
  bool_decide (c = "+"%char) || bool_decide (c = "-"%char).

(** [s.zfill(width)]: pad with ['0'] on the left up to [width] characters;
    a leading sign stays in front of the padding. *)
Definition zfill (width : nat) (s : string) : string :=
  let pad := repeat_char (width - String.length s) "0"%char in
  match s with
  | String c rest => if is_sign c then String c (pad +:+ rest) else pad +:+ s
  | EmptyString => pad
  end.

(** [sep.join(parts)]. *)
Fixpoint join (sep : string) (parts : list string) : string :=
  match parts with
  | [] => EmptyString
  | [p] => p
  | p :: ps => p +:+ sep +:+ join sep ps
  end.

Definition is_upper (c : ascii) : bool :=
  let n := nat_of_ascii c in (65 <=? n)%nat && (n <=? 90)%nat.

Definition lower_char (c : ascii) : ascii :=
  if is_upper c then ascii_of_nat (nat_of_ascii c + 32) else c.

Fixpoint lower (s : string) : string :=
  match s with
  | EmptyString => EmptyString
  | String c r => String (lower_char c) (lower r)
  end.

(** Text within ASCII: every character is below 128. *)
Fixpoint is_ascii (s : string) : bool :=
  match s with
  | EmptyString => true
  | String c r => (nat_of_ascii c <? 128)%nat && is_ascii r
  end.

(** Text without a NUL character, which the store refuses in a pattern. *)
Fixpoint nul_free (s : string) : bool :=
  match s with
  | EmptyString => true
  | String c r => negb (bool_decide (c = "000"%char)) && nul_free r
  end.

Definition nonzero_digit (c : ascii) : Prop :=
  c ∈ ["1"; "2"; "3"; "4"; "5"; "6"; "7"; "8"; "9"]%char.

(** [needle] occurs in [hay] as a contiguous block. *)
Definition occurs_in (needle hay : string) : Prop :=
  ∃ pre post : string, hay = pre +:+ needle +:+ post.

(** Case-insensitive substring: containment after folding both sides. *)
Definition ci_substring (needle hay : string) : Prop :=
  occurs_in (lower needle) (lower hay).

End Text.

(** ** Documents *)

Inductive value :=
  | VNull
  | VInt (n : Z)
  | VStr (s : string)
  | VStrList (l : list string)
  | VTime (t : Z)
  | VOid (n : N).

Global Instance value_eq_dec : EqDecision value.
Proof. solve_decision. Defined.

Abbreviation doc := (gmap string value).

(** ** One generation run

    Two things differ between runs of the generator: the clock read once at
    the start of the batch, and the order in which [list({...})] enumerates a
    set of strings (string hashing is salted per process).  Every enumeration
    lists each member exactly once. *)

Record run := {
  now : Z;
  set_list : gset string → list string;
  set_list_perm : ∀ X, set_list X ≡ₚ elements X;
}.

Definition default_run (t : Z) : run :=
  {| now := t; set_list := elements; set_list_perm := λ X, reflexivity _ |}.

(** ** Seed generator (the loop body of [seed_posts]) *)

Module Seed.
Import Text.

Definition authors : list string :=
  [ "Alex Carter"; "Jordan Lee"; "Taylor Morgan"; "Riley Brooks"; "Casey Kim";
    "Avery Patel"; "Jamie Rivera"; "Morgan Blake"; "Quinn Parker"; "Drew Nguyen" ]%string.

Definition tag_pool : list string :=
  [ "tech"; "design"; "business"; "ai"; "dev"; "life"; "product"; "growth";
    "marketing"; "tutorial" ]%string.

Definition lorem_paras : list string :=
  [ "Lorem ipsum dolor sit amet, consectetur adipiscing elit. Vivamus at mi sit amet odio ultrices pulvinar.";
    "Curabitur at sapien sollicitudin, aliquam neque et, lacinia augue. Mauris nec massa quis justo cursus.";
    "Suspendisse potenti. Ut a ligula sed arcu vestibulum dapibus vitae non mi. Donec vel sagittis risus.";
    "Integer vitae dui at sapien volutpat ullamcorper. Praesent feugiat, enim vitae suscipit dapibus, urna massa.";
    "Sed sit amet tortor vitae justo scelerisque rhoncus. Cras at semper elit. Proin pretium, sapien ut bibendum."
  ]%string.

(** [pool[k % len(pool)]]; the index is always in range for a non-empty
    pool (see [pick_lookup]). *)
Definition pick (pool : list string) (k : Z) : string :=
  pool !!! Z.to_nat (k `mod` Z.of_nat (length pool)).

Definition idx (i : Z) : string := zfill 4 (str i).
Definition title (i : Z) : string := "Sample Blog Post " +:+ idx i.
Definition slug (i : Z) : string := "sample-blog-post-" +:+ idx i.
Definition excerpt (i : Z) : string :=
  "This is a short summary for post " +:+ idx i +:+ ". " +:+ pick lorem_paras i.

Definition content (i : Z) : string :=
  join (String LF (String LF EmptyString))
    [ "# " +:+ title i;
      pick lorem_paras (i + 0);
      pick lorem_paras (i + 1);
      pick lorem_paras (i + 2);
      "## Key Takeaways";
      "- Insight one about the topic";
      "- Practical tip for readers";
      "- Closing thought to inspire action" ]%string.

(** The set literal of line 128, before it is turned into a list. *)
Definition tag_set (i : Z) : gset string :=
  {[ pick tag_pool i; pick tag_pool (i * 3); pick tag_pool (i * 7) ]}.

Definition tags (r : run) (i : Z) : list string := set_list r (tag_set i).

Definition author (i : Z) : string := pick authors i.

Definition make_doc (r : run) (i : Z) : doc :=
  {[ "title" := VStr (title i);
     "slug" := VStr (slug i);
     "excerpt" := VStr (excerpt i);
     "content" := VStr (content i);
     "author" := VStr (author i);
     "tags" := VStrList (tags r i);
     "cover_image" := VNull;
     "created_at" := VTime (now r);
     "updated_at" := VTime (now r) ]}.

(** [docs] after the [for i in range(1, total + 1)] loop. *)
Definition make_docs (r : run) (total : Z) : list doc :=
  make_doc r <$> seqZ 1 total.

End Seed.

(** ** Regular expressions of the store's [$regex] operator

    The collection evaluates [$regex] with a PCRE-style engine.  The fragment
    modelled here is small: an ordinary character stands
    for itself, [.] stands for any character except a line feed, and the
    match may start anywhere in the subject.  A pattern that uses another
    metacharacter, or an option other than [i], is outside the fragment and
    [compile] answers [None] for it.  Letters are folded within ASCII only,
    which is the whole of case-insensitive matching when pattern and subject
    are ASCII text. *)

Module Regex.
Import Text.

Inductive atom :=
  | Lit (c : ascii)
  | AnyChar.

Record regex := { atoms : list atom; ignore_case : bool }.

Definition metachars : list ascii :=
  [ "\"; "^"; "$"; "."; "["; "]"; "|"; "("; ")"; "?"; "*"; "+"; "{"; "}" ]%char.

Definition is_meta (c : ascii) : bool := bool_decide (c ∈ metachars).

Fixpoint parse (pattern : string) : option (list atom) :=
  match pattern with
  | EmptyString => Some []
  | String c rest =>
      if bool_decide (c = "."%char) then cons AnyChar <$> parse rest
      else if is_meta c then None
      else cons (Lit c) <$> parse rest
  end.

Definition parse_options (options : string) : option bool :=
  if bool_decide (options = "i"%string) then Some true
  else if bool_decide (options = ""%string) then Some false
  else None.

Definition compile (pattern options : string) : option regex :=
  match parse pattern, parse_options options with
  | Some p, Some ic => Some {| atoms := p; ignore_case := ic |}
  | _, _ => None
  end.

Definition atom_matches (ic : bool) (a : atom) (c : ascii) : bool :=
  match a with
  | Lit x =>
      if ic then bool_decide (lower_char x = lower_char c) else bool_decide (x = c)
  | AnyChar => negb (bool_decide (c = LF))
  end.

Fixpoint match_here (ic : bool) (p : list atom) (s : string) : bool :=
  match p, s with
  | [], _ => true
  | a :: p', String c s' => atom_matches ic a c && match_here ic p' s'
  | _ :: _, EmptyString => false
  end.

Fixpoint search_from (ic : bool) (p : list atom) (s : string) : bool :=
  match_here ic p s ||
  match s with
  | EmptyString => false
  | String _ s' => search_from ic p s'
  end.

Definition search (re : regex) (s : string) : bool :=
  search_from (ignore_case re) (atoms re) s.

(** A pattern without metacharacters, and the atoms it stands for. *)
Fixpoint is_literal (pattern : string) : bool :=
  match pattern with
  | EmptyString => true
  | String c rest => negb (is_meta c) && is_literal rest
  end.

Fixpoint lits (s : string) : list atom :=
  match s with
  | EmptyString => []
  | String c rest => Lit c :: lits rest
  end.

End Regex.

(** ** The document collection

    The driver is a black box; this is the part of its behaviour the handlers
    rely on: insertion under the unique index on [slug] that
    [ensure_indexes] creates, counting, filtered [find] with a projection,
    [sort], [skip], [limit] and [find_one]. *)

Module Store.

(** [faults] is the fate of the coming insert attempts: [true] makes the
    next attempt fail for a reason that is not a duplicate key. *)
Record store := {
  docs : list doc;
  next_oid : N;
  faults : list bool;
}.

Definition empty : store := {| docs := []; next_oid := 0%N; faults := [] |}.

Inductive insert_outcome :=
  | Inserted
  | DuplicateKeyError
  | OtherFailure.

(** The key of a document in the unique index: a missing field is indexed
    as null. *)
Definition slug_key (d : doc) : value := default VNull (d !! "slug"%string).

(** What the store keeps of a value: a date is kept to the millisecond,
    rounded down, and without its zone; the rest is kept as it is. *)
Definition to_bson_value (v : value) : value :=
  match v with
  | VTime t => VTime (t - t `mod` 1000)
  | _ => v
  end.

Definition to_bson (d : doc) : doc := to_bson_value <$> d.

(** The key that [d] would have once stored is already in the index. *)
Definition slug_taken (ds : list doc) (d : doc) : bool :=
  bool_decide (Exists (λ d', slug_key d' = slug_key (to_bson d)) ds).

Definition with_id (oid : N) (d : doc) : doc :=
  match d !! "_id"%string with
  | Some _ => d
  | None => <["_id"%string := VOid oid]> d
  end.

Definition insert_one (st : store) (d : doc) : store * insert_outcome :=
  match faults st with
  | true :: fs =>
      ({| docs := docs st; next_oid := next_oid st; faults := fs |}, OtherFailure)
  | fs =>
      let fs' := tail fs in
      if slug_taken (docs st) d
      then ({| docs := docs st; next_oid := next_oid st; faults := fs' |},
            DuplicateKeyError)
      else ({| docs := docs st ++ [with_id (next_oid st) (to_bson d)];
               next_oid := N.succ (next_oid st);
               faults := fs' |}, Inserted)
  end.

Definition estimated_document_count (st : store) : Z :=
  Z.of_nat (length (docs st)).

(** The largest integer the driver can send. *)
Definition int64_max : Z := 2 ^ 63 - 1.

(** *** Filters *)

Inductive cond :=
  | CEq (v : string)
  | CRegex (pattern options : string).

Inductive clause :=
  | Field (name : string) (c : cond)
  | Or (alts : list (string * cond)).

(** [{name: v}] with a string [v]: the field is that string, or an array
    with that string among its elements. *)
Definition field_eq (name v : string) (d : doc) : bool :=
  match d !! name with
  | Some (VStr s) => bool_decide (s = v)
  | Some (VStrList l) => bool_decide (v ∈ l)
  | _ => false
  end.

(** [{name: {"$regex": ...}}]: the field is a string the expression finds a
    match in, or an array with such a string among its elements. *)
Definition field_regex (name : string) (re : Regex.regex) (d : doc) : bool :=
  match d !! name with
  | Some (VStr s) => Regex.search re s
  | Some (VStrList l) => existsb (Regex.search re) l
  | _ => false
  end.

Definition cond_test (name : string) (c : cond) : option (doc → bool) :=
  match c with
  | CEq v => Some (field_eq name v)
  | CRegex p o => field_regex name <$> Regex.compile p o
  end.

Fixpoint or_test (alts : list (string * cond)) : option (doc → bool) :=
  match alts with
  | [] => Some (λ _, false)
  | (name, c) :: rest =>
      match cond_test name c, or_test rest with
      | Some t, Some ts => Some (λ d, t d || ts d)
      | _, _ => None
      end
  end.

Definition clause_test (c : clause) : option (doc → bool) :=
  match c with
  | Field name c => cond_test name c
  | Or alts => or_test alts
  end.

(** A filter document is the conjunction of its entries; [{}] matches
    everything. *)
Fixpoint filter_test (flt : list clause) : option (doc → bool) :=
  match flt with
  | [] => Some (λ _, true)
  | c :: rest =>
      match clause_test c, filter_test rest with
      | Some t, Some ts => Some (λ d, t d && ts d)
      | _, _ => None
      end
  end.

Definition find (test : doc → bool) (st : store) : list doc :=
  filter (λ d, test d = true) (docs st).

Definition count_documents (test : doc → bool) (st : store) : Z :=
  Z.of_nat (length (find test st)).

Definition find_one (test : doc → bool) (st : store) : option doc :=
  head (find test st).

(** The projection [{name: 0}]. *)
Definition exclude (name : string) (d : doc) : doc := delete name d.

(** *** Ordering by [created_at]

    A document without a date in [created_at] sorts as null, below every
    date. *)
Definition created_key (d : doc) : option Z :=
  match d !! "created_at"%string with
  | Some (VTime t) => Some t
  | _ => None
  end.

Definition key_le (a b : option Z) : Prop :=
  match a, b with
  | None, _ => True
  | Some _, None => False
  | Some x, Some y => x ≤ y
  end.

(** [d1] may come before [d2] in a listing sorted by [created_at]
    descending. *)
Definition newer_eq (d1 d2 : doc) : Prop := key_le (created_key d2) (created_key d1).

Global Instance key_le_dec a b : Decision (key_le a b).
Proof. destruct a, b; simpl; apply _. Defined.

Global Instance newer_eq_dec d1 d2 : Decision (newer_eq d1 d2).
Proof. unfold newer_eq. apply _. Defined.

(** The sort, as an insertion sort that keeps documents with the same date
    in the order of the collection. *)
Fixpoint insert_desc (d : doc) (l : list doc) : list doc :=
  match l with
  | [] => [d]
  | x :: l' => if decide (newer_eq d x) then d :: l else x :: insert_desc d l'
  end.

Definition sort_created_desc (l : list doc) : list doc := foldr insert_desc [] l.

(** [cursor.skip(n)] for [0 <= n <= int64_max]; the driver refuses any
    other [n] (see [list_posts_query]). *)
Definition skip (n : Z) (l : list doc) : list doc := drop (Z.to_nat n) l.

(** [cursor.limit(n)]: [0] means no limit. *)
Definition limit (n : Z) (l : list doc) : list doc :=
  if bool_decide (n = 0) then l else take (Z.to_nat (Z.abs n)) l.

End Store.

(** ** The handlers *)

Inductive exn :=
  | HTTPException (status_code : Z) (detail : string)
  | RequestValidationError
  | KeyError (key : string)
  | ValueError (message : string)
  | OverflowError (message : string).

Inductive result (A : Type) :=
  | Ok (a : A)
  | Raise (e : exn).
Global Arguments Ok {A} a.
Global Arguments Raise {A} e.

Definition db_unavailable {A} : result A :=
  Raise (HTTPException 500 "Database not available").

(** *** [seed_posts] *)

(** The insertion loop: one [insert_one] per document, any exception of the
    attempt is caught and dropped. *)
Fixpoint insert_each (st : Store.store) (ds : list doc) (inserted : Z)
  : Store.store * Z :=
  match ds with
  | [] => (st, inserted)
  | d :: ds' =>
      match Store.insert_one st d with
      | (st', Store.Inserted) => insert_each st' ds' (inserted + 1)
      | (st', _) => insert_each st' ds' inserted
      end
  end.

Definition already_message (existing : Z) : string :=
  "Database already has " +:+ Text.str existing +:+ " posts".

Definition seed_posts (r : run) (db : option Store.store) (total : Z)
  : option Store.store * result doc :=
  match db with
  | None => (None, db_unavailable)
  | Some st =>
      let existing := Store.estimated_document_count st in
      if bool_decide (total ≤ existing) then
        (Some st,
         Ok {[ "status"%string := VStr "ok";
               "message"%string := VStr (already_message existing) ]})
      else
        let docs := Seed.make_docs r total in
        let '(st', inserted) := insert_each st docs 0 in
        (Some st',
         Ok {[ "status"%string := VStr "ok";
               "inserted"%string := VInt inserted;
               "total"%string := VInt (Store.estimated_document_count st') ]})
  end.

(** *** [list_posts] *)

Record listing := {
  resp_page : Z;
  resp_limit : Z;
  resp_total : Z;
  resp_pages : Z;
  resp_items : list doc;
}.

(** [if q:] and [if tag:] test an [Optional[str]]: [None] and the empty
    string are both false. *)
Definition truthy (o : option string) : option string :=
  match o with
  | Some s => if bool_decide (s = ""%string) then None else Some s
  | None => None
  end.

Definition build_filter (q tag : option string) : list Store.clause :=
  match truthy q with
  | Some q' =>
      [ Store.Or [ ("title"%string, Store.CRegex q' "i");
                   ("excerpt"%string, Store.CRegex q' "i");
                   ("content"%string, Store.CRegex q' "i");
                   ("tags"%string, Store.CRegex q' "i") ] ]
  | None => []
  end ++
  match truthy tag with
  | Some t => [ Store.Field "tags" (Store.CEq t) ]
  | None => []
  end.

(** The expression of line 198. *)
Definition page_count (total limit : Z) : Z :=
  if bool_decide (limit ≠ 0) then (total + limit - 1) `div` limit else 1.

(** [str(ObjectId)]: 24 hexadecimal digits. *)
Definition oid_str (n : N) : string :=
  Text.zfill 24 (HexadecimalString.NilZero.string_of_uint (N.to_hex_uint n)).

(** [d["_id"] = str(d["_id"])].  The outer [None] is an [_id] that is not an
    [ObjectId], which the store never assigns and the model leaves out. *)
Definition stringify_id (d : doc) : option (result doc) :=
  match d !! "_id"%string with
  | Some (VOid n) => Some (Ok (<["_id"%string := VStr (oid_str n)]> d))
  | Some _ => None
  | None => Some (Raise (KeyError "_id"))
  end.

Fixpoint collect_items (cursor : list doc) (items : list doc)
  : option (result (list doc)) :=
  match cursor with
  | [] => Some (Ok items)
  | d :: rest =>
      match stringify_id d with
      | Some (Ok d') => collect_items rest (items ++ [d'])
      | Some (Raise e) => Some (Raise e)
      | None => None
      end
  end.

(** The constraints of the [Query(...)] declarations, checked before the
    body runs. *)
Definition valid_query (page limit : Z) : bool :=
  bool_decide (1 ≤ page) && bool_decide (1 ≤ limit) && bool_decide (limit ≤ 50).

(** Lines 179 to 200: what [list_posts] does once the filter is built.
    [filter_q] is the filter as the store evaluates it.  The driver refuses
    a negative skip when the cursor is built, and a skip or limit beyond 64
    bits when the cursor is read; either exception leaves the handler.  The
    outer [None] is a stored [_id] outside the model (see [stringify_id]). *)
Definition list_posts_query (st : Store.store) (page limit : Z)
    (filter_q : doc → bool) : option (result listing) :=
  let total := Store.count_documents filter_q st in
  if bool_decide ((page - 1) * limit < 0) then
    Some (Raise (ValueError "skip must be >= 0"))
  else if bool_decide (Store.int64_max < (page - 1) * limit)
          || bool_decide (Store.int64_max < Z.abs limit) then
    Some (Raise (OverflowError "MongoDB can only handle up to 8-byte ints"))
  else
    let cursor :=
      Store.exclude "content" <$>
        Store.limit limit
          (Store.skip ((page - 1) * limit)
             (Store.sort_created_desc (Store.find filter_q st))) in
    match collect_items cursor [] with
    | None => None
    | Some (Raise e) => Some (Raise e)
    | Some (Ok items) =>
        Some (Ok {| resp_page := page;
                    resp_limit := limit;
                    resp_total := total;
                    resp_pages := page_count total limit;
                    resp_items := items |})
    end.

(** The body of [list_posts].  The outer [None] is a query outside the
    model (see [Regex] and [stringify_id]). *)
Definition list_posts_body (db : option Store.store) (page limit : Z)
    (q tag : option string) : option (result listing) :=
  match db with
  | None => Some db_unavailable
  | Some st =>
      match Store.filter_test (build_filter q tag) with
      | None => None
      | Some filter_q => list_posts_query st page limit filter_q
      end
  end.

Definition list_posts (db : option Store.store) (page limit : Z)
    (q tag : option string) : option (result listing) :=
  if valid_query page limit then list_posts_body db page limit q tag
  else Some (Raise RequestValidationError).

(** *** [get_post]

    The value the handler returns; the framework applies the response model
    to it afterwards. *)

Definition get_post (db : option Store.store) (slug : string) : result doc :=
  match db with
  | None => db_unavailable
  | Some st =>
      match Store.find_one (Store.field_eq "slug" slug) st with
      | None => Raise (HTTPException 404 "Post not found")
      | Some d =>
          if bool_decide (d = ∅) then Raise (HTTPException 404 "Post not found")
          else Ok (delete "_id"%string d)
      end
  end.

(** ** Vocabulary of the specification *)

(** A post as the data model describes it: text in [title], [slug],
    [excerpt], [content] and [author], a list of labels in [tags]. *)
Definition post_shaped (d : doc) : Prop :=
  ∃ (t s e c a : string) (l : list string),
    d !! "title"%string = Some (VStr t) ∧
    d !! "slug"%string = Some (VStr s) ∧
    d !! "excerpt"%string = Some (VStr e) ∧
    d !! "content"%string = Some (VStr c) ∧
    d !! "author"%string = Some (VStr a) ∧
    d !! "tags"%string = Some (VStrList l).

(** [q] is a case-insensitive substring of a text field, or of at least one
    entry of a list field. *)
Definition contains_ci (q : string) (v : option value) : Prop :=
  match v with
  | Some (VStr s) => Text.ci_substring q s
  | Some (VStrList l) => Exists (Text.ci_substring q) l
  | _ => False
  end.

Definition search_hit (q : string) (d : doc) : Prop :=
  contains_ci q (d !! "title"%string) ∨
  contains_ci q (d !! "excerpt"%string) ∨
  contains_ci q (d !! "content"%string) ∨
  contains_ci q (d !! "tags"%string).

(** The four fields a search looks at hold ASCII text only. *)
Definition ascii_field (v : option value) : bool :=
  match v with
  | Some (VStr s) => Text.is_ascii s
  | Some (VStrList l) => forallb Text.is_ascii l
  | _ => true
  end.

Definition ascii_post (d : doc) : bool :=
  ascii_field (d !! "title"%string) && ascii_field (d !! "excerpt"%string)
  && ascii_field (d !! "content"%string) && ascii_field (d !! "tags"%string).

(** The [tags] field holds [t] among its entries, compared as whole strings. *)
Definition has_tag (t : string) (d : doc) : Prop :=
  ∃ l, d !! "tags"%string = Some (VStrList l) ∧ t ∈ l.

(** What the store guarantees of the documents it holds: each carries the
    [ObjectId] it was given on insertion and a text slug, and the unique
    index keeps the slugs apart. *)
Definition stored_doc (d : doc) : Prop :=
  (∃ n, d !! "_id"%string = Some (VOid n)) ∧ (∃ s, d !! "slug"%string = Some (VStr s)).

Definition store_wf (st : Store.store) : Prop :=
  Forall stored_doc (Store.docs st) ∧ NoDup (Store.slug_key <$> Store.docs st).

Global Instance stored_doc_dec (d : doc) : Decision (stored_doc d).
Proof.
  unfold stored_doc.
  destruct (d !! "_id"%string) as [[| | | | | n]|];
    try (right; intros [[? ?] _]; discriminate).
  destruct (d !! "slug"%string) as [[| | s | | |]|];
    try (right; intros [_ [? ?]]; discriminate).
  left. split; eexists; reflexivity.
Defined.

Global Instance store_wf_dec (st : Store.store) : Decision (store_wf st).
Proof. unfold store_wf. apply _. Defined.

(** [n] is the ceiling of [a / b], for [b > 0]. *)
Definition is_ceiling (n a b : Z) : Prop := (n - 1) * b < a ≤ n * b.

(** The listing entry made from a stored document. *)
Definition summary_of (d item : doc) : Prop :=
  ∃ n, d !! "_id"%string = Some (VOid n) ∧
       item = <["_id"%string := VStr (oid_str n)]> (delete "content"%string d).

(** The search term is absent, or within the fragment of patterns that
    [Regex] models. *)
Definition q_supported (q : option string) : Prop :=
  ∀ q', truthy q = Some q' → is_Some (Regex.parse q').

(** Two posts used as concrete inputs below. *)
Definition probe_post : doc :=
  {[ "_id"%string := VOid 0;
     "title"%string := VStr "a";
     "slug"%string := VStr "a";
     "excerpt"%string := VStr "b";
     "content"%string := VStr "c";
     "author"%string := VStr "e";
     "tags"%string := VStrList ["ai-generated"%string];
     "created_at"%string := VTime 0;
     "updated_at"%string := VTime 0 ]}.

Definition probe_store : Store.store :=
  {| Store.docs := [probe_post]; Store.next_oid := 1%N; Store.faults := [] |}.

(** The post [d] passes the filter that [list_posts] builds from [q] and
    [tag]. *)
Definition matches_listing (q tag : option string) (d : doc) : Prop :=
  ∃ test, Store.filter_test (build_filter q tag) = Some test ∧ test d = true.

(** Two seed requests in a row, the second on the store the first left. *)
Definition seed_twice (r1 r2 : run) (st : Store.store) (total : Z)
  : option Store.store * result doc * result doc :=
  let '(db1, resp1) := seed_posts r1 (Some st) total in
  let '(db2, resp2) := seed_posts r2 db1 total in
  (db2, resp1, resp2).

(** A document as the generator hands it to the store: no [_id] yet, and a
    text slug. *)
Definition fresh_doc (d : doc) : Prop :=
  d !! "_id"%string = None ∧ ∃ s, d !! "slug"%string = Some (VStr s).

(** An empty collection whose first insert attempt will fail for a reason
    other than a duplicate key. *)
Definition flaky_store : Store.store :=
  {| Store.docs := []; Store.next_oid := 0%N; Store.faults := [true] |}.

(** The entry [key] of a JSON answer, and the number of posts a pair of
    seed requests leaves. *)
Definition reported (key : string) (resp : result doc) : option value :=
  match resp with
  | Ok d => d !! key
  | Raise _ => None
  end.

Definition posts_after (x : option Store.store * result doc * result doc) : option Z :=
  Store.estimated_document_count <$> x.1.1.

(** ** Further handlers and vocabulary *)

(** Lower-case letters, a hyphen for each space: the shape of a slug made
    from a title. *)
Fixpoint kebab_lower (s : string) : string :=
  match s with
  | EmptyString => EmptyString
  | String c rest =>
      String (if bool_decide (c = " "%char) then "-"%char else Text.lower_char c)
        (kebab_lower rest)
  end.


(** *** [test_database]

    What the handler sees of the database handle is its name and the outcome
    of [list_collection_names()]: the names, or an exception with its text.
    Text is the bytes of its UTF-8 encoding, in which a character is a
    leading byte followed by its continuation bytes ([10xxxxxx]); [s[:n]]
    keeps the first [n] characters, not the first [n] bytes.  Reading
    [db.name] and the environment does not raise, so the outer handler is
    never entered. *)

Module Health.

Inductive listing_outcome :=
  | Names (collections : list string)
  | Raises (text : string).

Record database := {
  name : string;
  list_collection_names : listing_outcome;
}.

Definition is_continuation (c : ascii) : bool :=
  let n := nat_of_ascii c in (128 <=? n)%nat && (n <? 192)%nat.

(** [s[:n]]. *)
Fixpoint take_chars (n : nat) (s : string) : string :=
  match s with
  | EmptyString => EmptyString
  | String c rest =>
      if is_continuation c then String c (take_chars n rest)
      else match n with
           | O => EmptyString
           | S n' => String c (take_chars n' rest)
           end
  end.

(** [len(s)]: the number of characters. *)
Fixpoint char_count (s : string) : nat :=
  match s with
  | EmptyString => O
  | String c rest =>
      if is_continuation c then char_count rest else S (char_count rest)
  end.

Definition url_mark (database_url : option string) : string :=
  match truthy database_url with
  | Some _ => "✅ Set"
  | None => "❌ Not Set"
  end.

Definition test_database (db : option database) (database_url : option string) : doc :=
  let response : doc :=
    {[ "backend"%string := VStr "✅ Running";
       "database"%string := VStr "❌ Not Available";
       "database_url"%string := VNull;
       "database_name"%string := VNull;
       "connection_status"%string := VStr "Not Connected";
       "collections"%string := VStrList [] ]} in
  match db with
  | Some handle =>
      let response := <["database"%string := VStr "✅ Available"]> response in
      let response := <["database_url"%string := VStr (url_mark database_url)]> response in
      let response := <["database_name"%string := VStr (name handle)]> response in
      let response := <["connection_status"%string := VStr "Connected"]> response in
      match list_collection_names handle with
      | Names collections =>
          let response :=
            <["collections"%string := VStrList (take 10 collections)]> response in
          <["database"%string := VStr "✅ Connected & Working"]> response
      | Raises e =>
          <["database"%string :=
              VStr ("⚠️  Connected but Error: " +:+ take_chars 50 e)]> response
      end
  | None =>
      <["database"%string := VStr "⚠️  Available but not initialized"]> response
  end.

End Health.

(** *** [ensure_indexes]

    A collection with its index catalogue.  [create_index] follows the
    driver: asking again for an index that exists with the same options
    changes nothing, asking for the same keys with other options is
    refused, an index over two array fields of one document cannot be
    built, and a unique index cannot be built over documents that share a
    key. *)

Module Indexes.

Record index := {
  keys : list (string * Z);
  unique : bool;
}.

Global Instance index_eq_dec : EqDecision index.
Proof. solve_decision. Defined.

Record collection := {
  docs : list doc;
  catalogue : list index;
}.

Inductive failure :=
  | DuplicateKeyError
  | OperationFailure.

Definition is_array (v : option value) : bool :=
  match v with
  | Some (VStrList _) => true
  | _ => false
  end.

(** The entries of a field in an index: a missing field is indexed as
    null, an array once for each of its distinct elements, and an empty
    array under a key of its own. *)
Definition entries_of (v : option value) : list value :=
  match v with
  | None => [VNull]
  | Some (VStrList []) => [VStrList []]
  | Some (VStrList l) => VStr <$> remove_dups l
  | Some v => [v]
  end.

(** The index keys of a document: one for each choice of an entry per
    field. *)
Fixpoint keys_of (ks : list (string * Z)) (d : doc) : list (list value) :=
  match ks with
  | [] => [[]]
  | k :: ks' => e ← entries_of (d !! k.1); (e ::.) <$> keys_of ks' d
  end.

(** More than one of the indexed fields of the document is an array. *)
Definition parallel_arrays (ks : list (string * Z)) (d : doc) : bool :=
  bool_decide (1 < length (filter (λ k, is_array (d !! k.1) = true) ks))%nat.

Definition create_index (c : collection) (ks : list (string * Z)) (uniq : bool)
  : failure + collection :=
  match list_find (λ ix, keys ix = ks) (catalogue c) with
  | Some (_, ix) =>
      if bool_decide (unique ix = uniq) then inr c else inl OperationFailure
  | None =>
      if existsb (parallel_arrays ks) (docs c) then inl OperationFailure
      else if uniq && negb (bool_decide (NoDup (docs c ≫= keys_of ks)))
      then inl DuplicateKeyError
      else inr {| docs := docs c;
                  catalogue := catalogue c ++ [ {| keys := ks; unique := uniq |} ] |}
  end.

(** [ensure_indexes()]: nothing without a database, otherwise the four
    [create_index] calls in order; an exception of one of them ends the
    function. *)
Definition ensure_indexes (db : option collection) : failure + option collection :=
  match db with
  | None => inr None
  | Some c =>
      match create_index c [("slug"%string, 1)] true with
      | inl e => inl e
      | inr c1 =>
          match create_index c1 [("title"%string, 1)] false with
          | inl e => inl e
          | inr c2 =>
              match create_index c2 [("tags"%string, 1)] false with
              | inl e => inl e
              | inr c3 =>
                  match create_index c3 [("created_at"%string, -1)] false with
                  | inl e => inl e
                  | inr c4 => inr (Some c4)
                  end
              end
          end
      end
  end.

(** The catalogue already answers a request for keys [ks] with uniqueness
    [uniq]: the first index on these keys has that option. *)
Definition settled (cat : list index) (ks : list (string * Z)) (uniq : bool) : Prop :=
  ∃ i ix, list_find (λ ix, keys ix = ks) cat = Some (i, ix) ∧ unique ix = uniq.

(** The four indexes of [ensure_indexes]. *)
Definition wanted : list index :=
  [ {| keys := [("slug"%string, 1)]; unique := true |};
    {| keys := [("title"%string, 1)]; unique := false |};
    {| keys := [("tags"%string, 1)]; unique := false |};
    {| keys := [("created_at"%string, -1)]; unique := false |} ].

End Indexes.

(** * Properties *)

(** ** Text *)

Section text_facts.
Import Text.

Lemma length_repeat_char n c : String.length (repeat_char n c) = n.
Proof. induction n as [|n IH]; simpl; [done | by rewrite IH]. Qed.

Lemma length_append (s t : string) :
  String.length (s +:+ t) = (String.length s + String.length t)%nat.
Proof. induction s as [|c s IH]; simpl; [done | by rewrite IH]. Qed.

(** Without a leading sign, [zfill] only prepends zeros. *)
Lemma zfill_unsigned w c rest :
  is_sign c = false →
  zfill w (String c rest)
  = repeat_char (w - String.length (String c rest)) "0"%char +:+ String c rest.
Proof. intros Hc. unfold zfill. by rewrite Hc. Qed.

(** *** Decimal numerals *)

Lemma pretty_N_char_nonzero (x : N) :
  (0 < x < 10)%N → nonzero_digit (pretty_N_char x).
Proof.
  intros Hx. unfold nonzero_digit.
  assert (x = 1 ∨ x = 2 ∨ x = 3 ∨ x = 4 ∨ x = 5 ∨ x = 6 ∨ x = 7 ∨ x = 8 ∨ x = 9)%N
    as Hc by lia.
  clear Hx. destruct Hc as [-> | [-> | [-> | [-> | [-> | [-> | [-> | [-> | ->]]]]]]]];
    simpl; set_solver.
Qed.

(** The numeral of a positive number starts with a digit from 1 to 9. *)
Lemma pretty_N_go_head (x : N) (s : string) :
  (0 < x)%N → ∃ c rest, pretty_N_go x s = String c rest ∧ nonzero_digit c.
Proof.
  revert s. induction (N.lt_wf_0 x) as [x _ IH]. intros s Hx.
  rewrite pretty_N_go_step by done.
  destruct (decide (x < 10)%N) as [Hlt | Hge].
  - rewrite (N.div_small x 10) by done. rewrite pretty_N_go_0.
    rewrite (N.mod_small x 10) by done.
    eexists _, _. split; [done |]. apply pretty_N_char_nonzero. lia.
  - apply IH.
    + apply N.div_lt; lia.
    + apply N.div_str_pos. lia.
Qed.

Lemma str_head (i : Z) :
  1 ≤ i → ∃ c rest, str i = String c rest ∧ nonzero_digit c.
Proof.
  intros Hi. destruct i as [|p|p]; try lia.
  unfold str, pretty, pretty_Z, pretty, pretty_positive, pretty, pretty_N.
  rewrite decide_False by done. by apply pretty_N_go_head.
Qed.

Lemma nonzero_digit_unsigned c : nonzero_digit c → is_sign c = false.
Proof.
  unfold nonzero_digit. rewrite !elem_of_cons, elem_of_nil.
  intros H. repeat (destruct H as [-> | H]; [done |]). done.
Qed.

Lemma nonzero_digit_not_zero c : nonzero_digit c → c ≠ "0"%char.
Proof.
  unfold nonzero_digit. rewrite !elem_of_cons, elem_of_nil.
  intros H. repeat (destruct H as [-> | H]; [done |]). done.
Qed.

(** Digit count: below [10^k] there are at most [k] digits, from [10^k] on
    there are more. *)
Lemma pretty_N_go_length_le (k : nat) (x : N) (s : string) :
  (x < 10 ^ N.of_nat k)%N →
  (String.length (pretty_N_go x s) ≤ String.length s + k)%nat.
Proof.
  revert x s. induction k as [|k IH]; intros x s Hx.
  - assert (x = 0%N) as -> by (simpl in Hx; lia).
    rewrite pretty_N_go_0. lia.
  - destruct (decide (x = 0%N)) as [-> | Hne].
    { rewrite pretty_N_go_0. lia. }
    rewrite pretty_N_go_step by lia.
    etrans; [apply IH |].
    + apply N.Div0.div_lt_upper_bound.
      rewrite Nat2N.inj_succ, N.pow_succ_r' in Hx. lia.
    + simpl. lia.
Qed.

Lemma pretty_N_go_length_ge (x : N) (s : string) :
  (String.length s ≤ String.length (pretty_N_go x s))%nat.
Proof.
  revert s. induction (N.lt_wf_0 x) as [x _ IH]. intros s.
  destruct (decide (x = 0%N)) as [-> | Hne].
  { by rewrite pretty_N_go_0. }
  rewrite pretty_N_go_step by lia.
  etrans; [| apply IH, N.div_lt; lia]. simpl. lia.
Qed.

Lemma pretty_N_go_length_gt (k : nat) (x : N) (s : string) :
  (10 ^ N.of_nat k ≤ x)%N →
  (String.length s + k < String.length (pretty_N_go x s))%nat.
Proof.
  revert x s. induction k as [|k IH]; intros x s Hx.
  - simpl in Hx. rewrite pretty_N_go_step by lia.
    eapply Nat.lt_le_trans; [| apply pretty_N_go_length_ge]. simpl. lia.
  - assert (0 < x)%N by (pose proof (N.pow_nonzero 10 (N.of_nat (S k))); lia).
    rewrite pretty_N_go_step by done.
    eapply Nat.le_lt_trans; [| apply IH].
    + simpl. lia.
    + rewrite Nat2N.inj_succ, N.pow_succ_r' in Hx.
      apply N.div_le_lower_bound; lia.
Qed.

Lemma str_positive (i : Z) :
  1 ≤ i → str i = pretty_N_go (Z.to_N i) "".
Proof.
  intros Hi. destruct i as [|p|p]; try lia.
  unfold str, pretty, pretty_Z, pretty, pretty_positive, pretty, pretty_N.
  by rewrite decide_False.
Qed.

Lemma str_length_le (k : nat) (i : Z) :
  1 ≤ i → i < 10 ^ Z.of_nat k → (String.length (str i) ≤ k)%nat.
Proof.
  intros Hi Hk. rewrite str_positive by done.
  apply (pretty_N_go_length_le k (Z.to_N i) ""). 
  apply N2Z.inj_lt. rewrite N2Z.inj_pow, Z2N.id, nat_N_Z by lia. done.
Qed.

Lemma str_length_gt (k : nat) (i : Z) :
  10 ^ Z.of_nat k ≤ i → (k < String.length (str i))%nat.
Proof.
  intros Hk.
  assert (1 ≤ i) by (pose proof (Z.pow_pos_nonneg 10 (Z.of_nat k)); lia).
  rewrite str_positive by done.
  apply (pretty_N_go_length_gt k (Z.to_N i) "").
  apply N2Z.inj_le. rewrite N2Z.inj_pow, Z2N.id, nat_N_Z by lia. done.
Qed.

(** Stripping leading zeros is unambiguous when what follows does not
    start with a zero. *)
Lemma zero_padding_inj (a b : nat) (s t : string) c c' rs rt :
  s = String c rs → t = String c' rt → c ≠ "0"%char → c' ≠ "0"%char →
  repeat_char a "0"%char +:+ s = repeat_char b "0"%char +:+ t → s = t.
Proof.
  intros -> -> Hc Hc'. revert b.
  induction a as [|a IH]; intros [|b]; simpl; intros Heq.
  - done.
  - by simplify_eq.
  - by simplify_eq.
  - apply (IH b). by simplify_eq.
Qed.

End text_facts.

(** ** The generator *)

Section seed_facts.
Import Text Seed.

Lemma pick_lookup (pool : list string) (k : Z) :
  pool ≠ [] → pool !! Z.to_nat (k `mod` Z.of_nat (length pool)) = Some (pick pool k).
Proof.
  intros Hne. unfold pick. apply list_lookup_lookup_total_lt.
  assert (0 < Z.of_nat (length pool)) by (destruct pool; simpl; [done | lia]).
  pose proof (Z.mod_pos_bound k (Z.of_nat (length pool))). lia.
Qed.

Lemma NoDup_tag_pool : NoDup tag_pool.
Proof. apply (bool_decide_unpack _). vm_compute. exact I. Qed.

Lemma NoDup_lorem_paras : NoDup lorem_paras.
Proof. apply (bool_decide_unpack _). vm_compute. exact I. Qed.

Lemma pick_eq_iff (pool : list string) (j k : Z) :
  pool ≠ [] → NoDup pool →
  pick pool j = pick pool k
  ↔ j `mod` Z.of_nat (length pool) = k `mod` Z.of_nat (length pool).
Proof.
  intros Hne Hnd. split.
  - intros Heq.
    pose proof (pick_lookup pool j Hne) as Hj.
    pose proof (pick_lookup pool k Hne) as Hk.
    rewrite Heq in Hj.
    pose proof (NoDup_lookup _ _ _ _ Hnd Hj Hk) as Hi.
    assert (0 < Z.of_nat (length pool)) by (destruct pool; simpl; [done | lia]).
    pose proof (Z.mod_pos_bound j (Z.of_nat (length pool))).
    pose proof (Z.mod_pos_bound k (Z.of_nat (length pool))). lia.
  - intros Heq. unfold pick. by rewrite Heq.
Qed.

(** The three tag picks collide exactly at the multiples of 5, and then all
    at once. *)
Lemma tag_picks_mod (i : Z) :
  (i `mod` 10 = (i * 3) `mod` 10 ↔ i `mod` 5 = 0) ∧
  ((i * 3) `mod` 10 = (i * 7) `mod` 10 ↔ i `mod` 5 = 0) ∧
  (i `mod` 10 = (i * 7) `mod` 10 ↔ i `mod` 5 = 0).
Proof. repeat split; intros; Z.div_mod_to_equations; lia. Qed.

Lemma para_picks_mod (i : Z) :
  (i + 0) `mod` 5 ≠ (i + 1) `mod` 5 ∧
  (i + 1) `mod` 5 ≠ (i + 2) `mod` 5 ∧
  (i + 0) `mod` 5 ≠ (i + 2) `mod` 5.
Proof. repeat split; Z.div_mod_to_equations; lia. Qed.

Lemma tag_set_size (i : Z) :
  size (tag_set i) = if bool_decide (i `mod` 5 = 0) then 1%nat else 3%nat.
Proof.
  destruct (tag_picks_mod i) as (H13 & H37 & H17).
  assert (tag_pool ≠ []) as Hne by done.
  pose proof NoDup_tag_pool as Hnd.
  unfold tag_set. case_bool_decide as H5.
  - assert (pick tag_pool (i * 3) = pick tag_pool i) as ->.
    { apply pick_eq_iff; [done.. |]. symmetry. by apply H13. }
    assert (pick tag_pool (i * 7) = pick tag_pool i) as ->.
    { apply pick_eq_iff; [done.. |]. symmetry. by apply H17. }
    by rewrite !(idemp_L (∪)), size_singleton.
  - assert (pick tag_pool i ≠ pick tag_pool (i * 3)).
    { rewrite pick_eq_iff by done. simpl. tauto. }
    assert (pick tag_pool (i * 3) ≠ pick tag_pool (i * 7)).
    { rewrite pick_eq_iff by done. simpl. tauto. }
    assert (pick tag_pool i ≠ pick tag_pool (i * 7)).
    { rewrite pick_eq_iff by done. simpl. tauto. }
    rewrite !size_union, !size_singleton; [done | |].
    + by apply disjoint_singleton_l, not_elem_of_singleton.
    + apply disjoint_union_l. split; by apply disjoint_singleton_l, not_elem_of_singleton.
Qed.

Lemma tags_NoDup (r : run) (i : Z) : NoDup (tags r i).
Proof. unfold tags. rewrite set_list_perm. apply NoDup_elements. Qed.

Lemma elem_of_tags (r : run) (i : Z) (t : string) :
  t ∈ tags r i
  ↔ t = pick tag_pool i ∨ t = pick tag_pool (i * 3) ∨ t = pick tag_pool (i * 7).
Proof.
  unfold tags. rewrite set_list_perm, elem_of_elements. unfold tag_set.
  rewrite !elem_of_union, !elem_of_singleton. tauto.
Qed.

Lemma length_tags (r : run) (i : Z) : length (tags r i) = size (tag_set i).
Proof. unfold tags. by rewrite set_list_perm. Qed.

Lemma tags_perm (r1 r2 : run) (i : Z) : tags r1 i ≡ₚ tags r2 i.
Proof. unfold tags. by rewrite !set_list_perm. Qed.

(** *** The index string and the slug *)

Lemma idx_unfold (i : Z) :
  1 ≤ i →
  idx i = repeat_char (4 - String.length (str i)) "0"%char +:+ str i.
Proof.
  intros Hi. destruct (str_head i Hi) as (c & rest & Hs & Hc).
  unfold idx. rewrite Hs. apply zfill_unsigned. by apply nonzero_digit_unsigned.
Qed.

Lemma length_idx (i : Z) :
  1 ≤ i →
  String.length (idx i)
  = if bool_decide (i ≤ 9999) then 4%nat else String.length (str i).
Proof.
  intros Hi. rewrite idx_unfold by done.
  rewrite length_append, length_repeat_char.
  case_bool_decide.
  - pose proof (str_length_le 4 i Hi). lia.
  - pose proof (str_length_gt 4 i). lia.
Qed.

Lemma idx_inj (i j : Z) : 1 ≤ i → 1 ≤ j → idx i = idx j → i = j.
Proof.
  intros Hi Hj. rewrite !idx_unfold by done. intros Heq.
  destruct (str_head i Hi) as (c & rest & Hs & Hc).
  destruct (str_head j Hj) as (c' & rest' & Hs' & Hc').
  apply (inj (pretty : Z → string)).
  change (str i = str j).
  eapply zero_padding_inj; eauto using nonzero_digit_not_zero.
Qed.

Lemma slug_inj (i j : Z) : 1 ≤ i → 1 ≤ j → slug i = slug j → i = j.
Proof.
  intros Hi Hj Heq. apply idx_inj; [done.. |].
  unfold slug in Heq. by simplify_eq/=.
Qed.

(** *** Fields of a generated document *)

Lemma make_doc_slug r i : make_doc r i !! "slug"%string = Some (VStr (slug i)).
Proof. reflexivity. Qed.
Lemma make_doc_title r i : make_doc r i !! "title"%string = Some (VStr (title i)).
Proof. reflexivity. Qed.
Lemma make_doc_excerpt r i : make_doc r i !! "excerpt"%string = Some (VStr (excerpt i)).
Proof. reflexivity. Qed.
Lemma make_doc_content r i : make_doc r i !! "content"%string = Some (VStr (content i)).
Proof. reflexivity. Qed.
Lemma make_doc_author r i : make_doc r i !! "author"%string = Some (VStr (author i)).
Proof. reflexivity. Qed.
Lemma make_doc_tags r i : make_doc r i !! "tags"%string = Some (VStrList (tags r i)).
Proof. reflexivity. Qed.
Lemma make_doc_created r i : make_doc r i !! "created_at"%string = Some (VTime (now r)).
Proof. reflexivity. Qed.
Lemma make_doc_no_id r i : make_doc r i !! "_id"%string = None.
Proof. reflexivity. Qed.

End seed_facts.

(** C1.  For every index [i >= 1] the generated slug, tag set and author are
    functions of [i] alone: the slug is ["sample-blog-post-"] followed by the
    decimal numeral of [i] padded with zeros to four characters (exactly four
    up to [i = 9999]); the tags are, without repetition and in some order,
    the pool entries at [i mod 10], [(i*3) mod 10] and [(i*7) mod 10]; the
    author is the pool entry at [i mod 10].  Two runs, whatever their clock
    and their set enumeration order, agree on all three. *)
Theorem seed_generation_deterministic (r1 r2 : run) (i : Z) (Hi : 1 ≤ i) :
  ∃ (a t1 t2 t3 : string) (l1 l2 : list string),
    (* slug *)
    Seed.make_doc r1 i !! "slug"%string
      = Some (VStr ("sample-blog-post-"
                    +:+ Text.repeat_char (4 - String.length (Text.str i)) "0"%char
                    +:+ Text.str i)) ∧
    Seed.make_doc r2 i !! "slug"%string = Seed.make_doc r1 i !! "slug"%string ∧
    String.length (Seed.idx i)
      = (if bool_decide (i ≤ 9999) then 4%nat else String.length (Text.str i)) ∧
    (* tags *)
    Seed.tag_pool !! Z.to_nat (i `mod` 10) = Some t1 ∧
    Seed.tag_pool !! Z.to_nat ((i * 3) `mod` 10) = Some t2 ∧
    Seed.tag_pool !! Z.to_nat ((i * 7) `mod` 10) = Some t3 ∧
    Seed.make_doc r1 i !! "tags"%string = Some (VStrList l1) ∧
    Seed.make_doc r2 i !! "tags"%string = Some (VStrList l2) ∧
    NoDup l1 ∧ NoDup l2 ∧
    (∀ t, t ∈ l1 ↔ t = t1 ∨ t = t2 ∨ t = t3) ∧
    (∀ t, t ∈ l2 ↔ t = t1 ∨ t = t2 ∨ t = t3) ∧
    (list_to_set l1 : gset string) = list_to_set l2 ∧
    (* author *)
    Seed.authors !! Z.to_nat (i `mod` 10) = Some a ∧
    Seed.make_doc r1 i !! "author"%string = Some (VStr a) ∧
    Seed.make_doc r2 i !! "author"%string = Some (VStr a).
Proof.
  exists (Seed.author i), (Seed.pick Seed.tag_pool i),
    (Seed.pick Seed.tag_pool (i * 3)), (Seed.pick Seed.tag_pool (i * 7)),
    (Seed.tags r1 i), (Seed.tags r2 i).
  rewrite !make_doc_slug, !make_doc_tags, !make_doc_author.
  split_and!; try done.
  - unfold Seed.slug. by rewrite idx_unfold.
  - by apply length_idx.
  - by apply (pick_lookup Seed.tag_pool).
  - by apply (pick_lookup Seed.tag_pool).
  - by apply (pick_lookup Seed.tag_pool).
  - apply tags_NoDup.
  - apply tags_NoDup.
  - apply elem_of_tags.
  - apply elem_of_tags.
  - apply set_eq. intros t. by rewrite !elem_of_list_to_set, (tags_perm r1 r2).
  - by apply (pick_lookup Seed.authors).
Qed.

Lemma seed_generation_deterministic_witness :
  ∃ (a t1 t2 t3 : string) (l1 l2 : list string),
    Seed.make_doc (default_run 0) 7 !! "slug"%string
      = Some (VStr ("sample-blog-post-"
                    +:+ Text.repeat_char (4 - String.length (Text.str 7)) "0"%char
                    +:+ Text.str 7)) ∧
    Seed.make_doc (default_run 1000) 7 !! "slug"%string
      = Seed.make_doc (default_run 0) 7 !! "slug"%string ∧
    String.length (Seed.idx 7)
      = (if bool_decide (7 ≤ 9999) then 4%nat else String.length (Text.str 7)) ∧
    Seed.tag_pool !! Z.to_nat (7 `mod` 10) = Some t1 ∧
    Seed.tag_pool !! Z.to_nat ((7 * 3) `mod` 10) = Some t2 ∧
    Seed.tag_pool !! Z.to_nat ((7 * 7) `mod` 10) = Some t3 ∧
    Seed.make_doc (default_run 0) 7 !! "tags"%string = Some (VStrList l1) ∧
    Seed.make_doc (default_run 1000) 7 !! "tags"%string = Some (VStrList l2) ∧
    NoDup l1 ∧ NoDup l2 ∧
    (∀ t, t ∈ l1 ↔ t = t1 ∨ t = t2 ∨ t = t3) ∧
    (∀ t, t ∈ l2 ↔ t = t1 ∨ t = t2 ∨ t = t3) ∧
    (list_to_set l1 : gset string) = list_to_set l2 ∧
    Seed.authors !! Z.to_nat (7 `mod` 10) = Some a ∧
    Seed.make_doc (default_run 0) 7 !! "author"%string = Some (VStr a) ∧
    Seed.make_doc (default_run 1000) 7 !! "author"%string = Some (VStr a).
Proof.
  apply (seed_generation_deterministic (default_run 0) (default_run 1000) 7). lia.
Defined.

(** C9.  The content of post [i] is, joined by blank lines: the heading made
    of the title; the pool paragraphs at [(i+0) mod 5], [(i+1) mod 5] and
    [(i+2) mod 5], three different indices and three different texts; the
    "Key Takeaways" heading; and the three fixed bullet lines. *)
Theorem content_layout (r : run) (i : Z) :
  ∃ (t p0 p1 p2 : string),
    let sep := String Text.LF (String Text.LF EmptyString) in
    Seed.make_doc r i !! "title"%string = Some (VStr t) ∧
    Seed.lorem_paras !! Z.to_nat ((i + 0) `mod` 5) = Some p0 ∧
    Seed.lorem_paras !! Z.to_nat ((i + 1) `mod` 5) = Some p1 ∧
    Seed.lorem_paras !! Z.to_nat ((i + 2) `mod` 5) = Some p2 ∧
    (i + 0) `mod` 5 ≠ (i + 1) `mod` 5 ∧
    (i + 1) `mod` 5 ≠ (i + 2) `mod` 5 ∧
    (i + 0) `mod` 5 ≠ (i + 2) `mod` 5 ∧
    p0 ≠ p1 ∧ p1 ≠ p2 ∧ p0 ≠ p2 ∧
    Seed.make_doc r i !! "content"%string
      = Some (VStr (("# " +:+ t) +:+ sep +:+ p0 +:+ sep +:+ p1 +:+ sep +:+ p2 +:+ sep
                    +:+ "## Key Takeaways" +:+ sep
                    +:+ "- Insight one about the topic" +:+ sep
                    +:+ "- Practical tip for readers" +:+ sep
                    +:+ "- Closing thought to inspire action")).
Proof.
  exists (Seed.title i), (Seed.pick Seed.lorem_paras (i + 0)),
    (Seed.pick Seed.lorem_paras (i + 1)), (Seed.pick Seed.lorem_paras (i + 2)).
  destruct (para_picks_mod i) as (H01 & H12 & H02).
  pose proof NoDup_lorem_paras as Hnd.
  assert (Seed.lorem_paras ≠ []) as Hne by done.
  cbv zeta. split_and!; try done.
  - by apply (pick_lookup Seed.lorem_paras).
  - by apply (pick_lookup Seed.lorem_paras).
  - by apply (pick_lookup Seed.lorem_paras).
  - by rewrite pick_eq_iff.
  - by rewrite pick_eq_iff.
  - by rewrite pick_eq_iff.
Qed.

(** C10.  The generated tag list is never empty and has exactly one entry
    when [i] is a multiple of 5 and exactly three otherwise, so never two:
    the picks [i mod 10], [(i*3) mod 10] and [(i*7) mod 10] coincide pairwise
    exactly at the multiples of 5. *)
Theorem tags_one_or_three (r : run) (i : Z) :
  Seed.tags r i ≠ [] ∧
  length (Seed.tags r i) ≠ 2%nat ∧
  length (Seed.tags r i) = (if bool_decide (i `mod` 5 = 0) then 1%nat else 3%nat) ∧
  size (Seed.tag_set i) = length (Seed.tags r i) ∧
  Seed.make_doc r i !! "tags"%string = Some (VStrList (Seed.tags r i)) ∧
  (i `mod` 10 = (i * 3) `mod` 10 ↔ i `mod` 5 = 0) ∧
  ((i * 3) `mod` 10 = (i * 7) `mod` 10 ↔ i `mod` 5 = 0) ∧
  (i `mod` 10 = (i * 7) `mod` 10 ↔ i `mod` 5 = 0).
Proof.
  pose proof (length_tags r i) as Hlen. pose proof (tag_set_size i) as Hsz.
  destruct (tag_picks_mod i) as (? & ? & ?).
  rewrite Hsz in Hlen. split_and!; try done.
  - intros Hnil. rewrite Hnil in Hlen. simpl in Hlen.
    by destruct (bool_decide (i `mod` 5 = 0)).
  - rewrite Hlen. by destruct (bool_decide (i `mod` 5 = 0)).
  - by rewrite Hlen.
Qed.

(** ** Searching with a literal pattern *)

Section regex_facts.
Import Text Regex.

Lemma parse_literal (q : string) :
  is_literal q = true → parse q = Some (lits q).
Proof.
  induction q as [|c q IH]; simpl; [done |].
  intros [Hc Hq]%andb_true_iff. apply negb_true_iff in Hc.
  rewrite bool_decide_eq_false_2.
  - rewrite Hc, IH by done. done.
  - intros ->. by vm_compute in Hc.
Qed.

Lemma compile_literal (q : string) :
  is_literal q = true →
  compile q "i" = Some {| atoms := lits q; ignore_case := true |}.
Proof. intros Hq. unfold compile. by rewrite parse_literal. Qed.

(** Matching the literal atoms of [q] at the start of [s] is a prefix test
    on the folded strings. *)
Lemma match_here_lits (q s : string) :
  match_here true (lits q) s = true ↔ ∃ post, lower s = lower q +:+ post.
Proof.
  revert s. induction q as [|c q IH]; intros s; simpl.
  - split; [intros _; by exists (lower s) | done].
  - destruct s as [|c' s]; simpl.
    + split; [done | by intros [post ?]].
    + rewrite andb_true_iff, bool_decide_eq_true, IH. split.
      * intros [Hc [post Hp]]. exists post. by rewrite Hc, Hp.
      * intros [post Hp]. simpl in Hp. injection Hp as Hc Hs. eauto.
Qed.

Lemma search_from_lits (q s : string) :
  search_from true (lits q) s = true ↔ ci_substring q s.
Proof.
  unfold ci_substring, occurs_in.
  induction s as [|c s IH]; simpl; rewrite orb_true_iff.
  - rewrite match_here_lits. simpl. split.
    + intros [[post Hp] | ?]; [| done]. by exists ""%string, post.
    + intros (pre & post & Hp). left.
      destruct pre; [by exists post | done].
  - rewrite match_here_lits, IH. simpl. split.
    + intros [[post Hp] | (pre & post & Hp)].
      * by exists ""%string, post.
      * exists (String (lower_char c) pre), post. simpl. by rewrite Hp.
    + intros (pre & post & Hp). destruct pre as [|x pre]; simpl in Hp.
      * left. by exists post.
      * right. exists pre, post. by injection Hp.
Qed.

Lemma ci_substring_empty (s : string) : ci_substring "" s.
Proof. by exists ""%string, (lower s). Qed.

Lemma field_regex_literal (name q : string) (d : doc) :
  Store.field_regex name {| atoms := lits q; ignore_case := true |} d = true
  ↔ contains_ci q (d !! name).
Proof.
  unfold Store.field_regex, contains_ci, search. simpl.
  destruct (d !! name) as [[| | s | l | |]|]; try done.
  - apply search_from_lits.
  - rewrite existsb_exists, Exists_exists.
    setoid_rewrite search_from_lits. by setoid_rewrite list_elem_of_In.
Qed.

End regex_facts.

(** ** The filter of [list_posts] *)

Section filter_facts.
Import Store.

Lemma truthy_nonempty (s : string) : s ≠ ""%string → truthy (Some s) = Some s.
Proof. intros Hs. unfold truthy. by rewrite bool_decide_eq_false_2. Qed.

Lemma compile_supported (q : string) :
  is_Some (Regex.parse q) → is_Some (Regex.compile q "i").
Proof. intros [p Hp]. unfold Regex.compile. rewrite Hp. by eexists. Qed.

(** Adding a non-empty tag conjoins the exact-match test on [tags]. *)
Lemma matches_listing_tag (q : option string) (t : string) (d : doc) :
  t ≠ ""%string →
  matches_listing q (Some t) d
  ↔ matches_listing q None d ∧ field_eq "tags" t d = true.
Proof.
  intros Ht. unfold matches_listing, build_filter.
  rewrite truthy_nonempty by done. simpl. rewrite app_nil_r.
  destruct (truthy q) as [q'|]; simpl.
  - destruct (Regex.compile q' "i") as [re|]; simpl.
    + split.
      * intros (test & [= <-] & Hd). simpl in Hd.
        rewrite !andb_true_r in Hd. apply andb_true_iff in Hd as [Hq Htag].
        split; [| done]. eexists. split; [done |]. simpl.
        by rewrite andb_true_r.
      * intros [(qtest & [= <-] & Hq) Htag]. simpl in Hq.
        eexists. split; [done |]. simpl.
        rewrite andb_true_r in Hq. by rewrite Hq, Htag.
    + split; [by intros (? & ? & ?) | by intros [(? & ? & ?) _]].
  - split.
    + intros (test & [= <-] & Hd). simpl in Hd. rewrite andb_true_r in Hd.
      split; [by eexists | done].
    + intros [_ Htag]. eexists. split; [done |]. simpl. by rewrite Htag.
Qed.

(** An empty tag is falsy: no tag test is added. *)
Lemma build_filter_empty_tag (q : option string) :
  build_filter q (Some ""%string) = build_filter q None.
Proof. done. Qed.

Lemma field_eq_tags (t : string) (d : doc) :
  post_shaped d → field_eq "tags" t d = true ↔ has_tag t d.
Proof.
  intros (? & ? & ? & ? & ? & l & _ & _ & _ & _ & _ & Hl).
  unfold field_eq, has_tag. rewrite Hl, bool_decide_eq_true.
  split; [by eauto |]. by intros (l' & [= <-] & ?).
Qed.

Lemma post_shaped_probe : post_shaped probe_post.
Proof. unfold post_shaped. by repeat eexists. Qed.

End filter_facts.

(** C3 (as amended).  When the search term [q] is ASCII text without any
    regular-expression metacharacter and without NUL, a post whose title,
    excerpt, content and tags are ASCII text passes the filter built from
    [q] exactly when [q] occurs, ignoring the case of letters, inside its
    title, its excerpt, its content or one of its tags. *)
Theorem search_literal_is_substring (q : string) (d : doc) :
  Regex.is_literal q = true → Text.is_ascii q = true → Text.nul_free q = true →
  post_shaped d → ascii_post d = true →
  matches_listing (Some q) None d ↔ search_hit q d.
Proof.
  intros Hlit _ _ Hd _. unfold matches_listing.
  destruct (decide (q = ""%string)) as [-> | Hq].
  - simpl. split.
    + intros _. left. destruct Hd as (t & ? & ? & ? & ? & ? & Ht & _).
      rewrite Ht. apply ci_substring_empty.
    + intros _. by eexists.
  - unfold build_filter. rewrite truthy_nonempty by done. simpl.
    rewrite (compile_literal q Hlit). simpl. unfold search_hit.
    rewrite <-!(field_regex_literal _ q d). split.
    + intros (test & [= <-] & Ht). simpl in Ht.
      rewrite andb_true_r, orb_false_r, !orb_true_iff in Ht. tauto.
    + intros Hany. eexists. split; [done |]. simpl.
      rewrite andb_true_r, orb_false_r, !orb_true_iff. tauto.
Qed.

Lemma search_literal_is_substring_witness :
  matches_listing (Some "AI-gen"%string) None probe_post
  ↔ search_hit "AI-gen" probe_post.
Proof.
  apply (search_literal_is_substring "AI-gen" probe_post).
  - reflexivity.
  - reflexivity.
  - reflexivity.
  - exact post_shaped_probe.
  - reflexivity.
Defined.

(** C3 (as stated) fails: the term ["."] matches a post in which no field
    contains a full stop. *)
Lemma search_dot_not_substring :
  post_shaped probe_post ∧
  matches_listing (Some "."%string) None probe_post ∧
  ¬ search_hit "." probe_post.
Proof.
  split; [exact post_shaped_probe |]. split.
  - eexists. split; [reflexivity |]. vm_compute. reflexivity.
  - unfold search_hit. rewrite <-!(field_regex_literal _ "." probe_post).
    vm_compute. intros [H | [H | [H | H]]]; discriminate H.
Qed.

(** C4 (as amended).  With a non-empty [tag], a post passes the filter
    exactly when it passes the filter of [q] alone and its tags contain
    [tag] as a whole entry, compared character by character. *)
Theorem tag_filter_exact (q : option string) (t : string) (d : doc) :
  t ≠ ""%string → post_shaped d →
  matches_listing q (Some t) d ↔ matches_listing q None d ∧ has_tag t d.
Proof.
  intros Ht Hd. rewrite matches_listing_tag by done.
  by rewrite field_eq_tags.
Qed.

Lemma tag_filter_exact_witness :
  matches_listing None (Some "ai-generated"%string) probe_post
  ↔ matches_listing None None probe_post ∧ has_tag "ai-generated" probe_post.
Proof.
  apply (tag_filter_exact None "ai-generated" probe_post).
  - discriminate.
  - exact post_shaped_probe.
Defined.

(** C4 (as stated) fails for the empty tag, which the handler treats as no
    tag at all: every post passes, whatever its tags. *)
Lemma empty_tag_matches_all :
  post_shaped probe_post ∧
  matches_listing None (Some ""%string) probe_post ∧
  ¬ has_tag "" probe_post.
Proof.
  split; [exact post_shaped_probe |]. split.
  - eexists. split; [reflexivity |]. reflexivity.
  - intros (l & Hl & Hin). vm_compute in Hl. injection Hl as <-.
    apply list_elem_of_singleton in Hin. discriminate Hin.
Qed.

(** A tag that is only a substring of an entry does not match. *)
Example tag_ai_rejects_ai_generated :
  ¬ matches_listing None (Some "ai"%string) probe_post.
Proof.
  rewrite matches_listing_tag by done. intros [_ Hin]. vm_compute in Hin.
  discriminate Hin.
Qed.

(** ** Listing: counting, ordering, windowing *)

Section listing_facts.
Import Store.

Global Instance key_le_total : Total key_le.
Proof. intros [x|] [y|]; simpl; try tauto. lia. Qed.

Global Instance key_le_trans : Transitive key_le.
Proof. intros [x|] [y|] [z|]; simpl; try tauto. lia. Qed.

Global Instance newer_eq_total : Total newer_eq.
Proof. intros d1 d2. unfold newer_eq. destruct (total key_le (created_key d1) (created_key d2)); tauto. Qed.

Global Instance newer_eq_trans : Transitive newer_eq.
Proof. intros d1 d2 d3. unfold newer_eq. intros ??. by etrans. Qed.

Lemma insert_desc_perm (d : doc) (l : list doc) : insert_desc d l ≡ₚ d :: l.
Proof.
  induction l as [|x l IH]; simpl; [done |].
  destruct (decide (newer_eq d x)); [done |].
  rewrite IH. apply Permutation_swap.
Qed.

Lemma insert_desc_sorted (d : doc) (l : list doc) :
  StronglySorted newer_eq l → StronglySorted newer_eq (insert_desc d l).
Proof.
  induction 1 as [|x l Hl IH Hx]; simpl.
  - by repeat constructor.
  - destruct (decide (newer_eq d x)) as [Hdx | Hdx].
    + constructor; [by constructor |]. constructor; [done |].
      eapply Forall_impl; [exact Hx |]. intros y Hy. by trans x.
    + constructor; [done |]. rewrite insert_desc_perm. constructor; [| done].
      by destruct (total newer_eq d x).
Qed.

Lemma sort_created_desc_sorted (l : list doc) :
  StronglySorted newer_eq (sort_created_desc l).
Proof.
  induction l as [|d l IH]; simpl; [constructor |]. by apply insert_desc_sorted.
Qed.

Lemma sort_created_desc_perm (l : list doc) : sort_created_desc l ≡ₚ l.
Proof.
  induction l as [|d l IH]; simpl; [done |]. by rewrite insert_desc_perm, IH.
Qed.

Lemma StronglySorted_take {A} (R : relation A) (n : nat) (l : list A) :
  StronglySorted R l → StronglySorted R (take n l).
Proof. rewrite <-(take_drop n l) at 1. apply StronglySorted_app_1_l. Qed.

Lemma StronglySorted_drop {A} (R : relation A) (n : nat) (l : list A) :
  StronglySorted R l → StronglySorted R (drop n l).
Proof. rewrite <-(take_drop n l) at 1. apply StronglySorted_app_1_r. Qed.

(** The ceiling, for a count and a positive page size. *)
Lemma page_count_ceiling (total limit : Z) :
  1 ≤ limit → is_ceiling (page_count total limit) total limit.
Proof.
  intros Hl. unfold is_ceiling, page_count.
  rewrite bool_decide_eq_true_2 by lia.
  Z.div_mod_to_equations. nia.
Qed.

Lemma page_count_zero (total : Z) : page_count total 0 = 1.
Proof. done. Qed.

(** *** Entries *)

Lemma summary_of_created (d item : doc) :
  summary_of d item → created_key item = created_key d.
Proof.
  intros (n & _ & ->). unfold created_key.
  by rewrite lookup_insert_ne, lookup_delete_ne.
Qed.

Lemma summary_of_content (d item : doc) :
  summary_of d item → item !! "content"%string = None.
Proof.
  intros (n & _ & ->). by rewrite lookup_insert_ne, lookup_delete_eq.
Qed.

Lemma summary_of_sorted (l items : list doc) :
  Forall2 summary_of l items →
  StronglySorted newer_eq l → StronglySorted newer_eq items.
Proof.
  induction 1 as [|d item l items Hd Hl IH]; [done |].
  intros [Hs Hall]%StronglySorted_inv. constructor; [by apply IH |].
  clear IH Hs. induction Hl as [|d' item' l items Hd' Hl IH]; [done |].
  apply Forall_cons in Hall as [Hdd' Hall]. constructor; [| by apply IH].
  unfold newer_eq in *.
  by rewrite (summary_of_created _ _ Hd), (summary_of_created _ _ Hd').
Qed.

Lemma stringify_id_stored (d : doc) :
  stored_doc d →
  ∃ item, stringify_id (exclude "content" d) = Some (Ok item) ∧ summary_of d item.
Proof.
  intros [[n Hn] _]. unfold stringify_id, exclude.
  rewrite lookup_delete_ne, Hn by done.
  eexists. split; [done |]. by exists n.
Qed.

Lemma collect_items_stored (l acc : list doc) :
  Forall stored_doc l →
  ∃ items, collect_items (exclude "content" <$> l) acc = Some (Ok (acc ++ items))
           ∧ Forall2 summary_of l items.
Proof.
  revert acc. induction l as [|d l IH]; intros acc Hall.
  - exists []. by rewrite app_nil_r.
  - apply Forall_cons in Hall as [Hd Hall].
    rewrite fmap_cons. cbn [collect_items].
    destruct (stringify_id_stored d Hd) as (item & -> & Hitem).
    destruct (IH (acc ++ [item]) Hall) as (items & -> & Hitems).
    exists (item :: items). rewrite <-app_assoc. split; [done |].
    by constructor.
Qed.

Lemma filter_test_supported (q tag : option string) :
  q_supported q → is_Some (filter_test (build_filter q tag)).
Proof.
  intros Hq. unfold build_filter.
  destruct (truthy q) as [q'|] eqn:Eq; simpl.
  - destruct (compile_supported q' (Hq q' Eq)) as [re ->]. simpl.
    destruct (truthy tag); simpl; by eexists.
  - destruct (truthy tag); simpl; by eexists.
Qed.

(** The query part of [list_posts] on a store in good order, with a skip
    and a limit the driver can send: it answers, and the answer is the
    projected window of the sorted matches. *)
Lemma list_posts_query_ok (st : store) (page limit : Z) (test : doc → bool) :
  Forall stored_doc (docs st) →
  1 ≤ page → 0 ≤ limit →
  (page - 1) * limit ≤ int64_max → limit ≤ int64_max →
  ∃ items,
    list_posts_query st page limit test
    = Some (Ok {| resp_page := page;
                  resp_limit := limit;
                  resp_total := count_documents test st;
                  resp_pages := page_count (count_documents test st) limit;
                  resp_items := items |}) ∧
    Forall2 summary_of
      (Store.limit limit
         (skip ((page - 1) * limit) (sort_created_desc (find test st))))
      items.
Proof.
  intros Hst Hpage Hlimit Hskip Hfit. unfold list_posts_query.
  rewrite bool_decide_eq_false_2 by nia.
  rewrite (bool_decide_eq_false_2 (int64_max < (page - 1) * limit)) by lia.
  rewrite (bool_decide_eq_false_2 (int64_max < Z.abs limit)) by lia.
  simpl.
  set (window := Store.limit limit _).
  assert (Forall stored_doc window) as Hw.
  { subst window. unfold Store.limit, skip.
    assert (Forall stored_doc (sort_created_desc (find test st))) as Hs.
    { rewrite sort_created_desc_perm. unfold find.
      rewrite Forall_forall in Hst. apply Forall_forall.
      intros d [_ Hd]%list_elem_of_filter. by apply Hst. }
    case_bool_decide; [| apply Forall_take]; by apply Forall_drop. }
  destruct (collect_items_stored window [] Hw) as (items & -> & Hitems).
  by exists items.
Qed.

(** Beyond 64 bits the driver gives up: the handler ends with its
    exception. *)
Lemma list_posts_query_overflow (st : store) (page limit : Z) (test : doc → bool) :
  1 ≤ page → 0 ≤ limit →
  int64_max < (page - 1) * limit ∨ int64_max < limit →
  list_posts_query st page limit test
  = Some (Raise (OverflowError "MongoDB can only handle up to 8-byte ints")).
Proof.
  intros Hpage Hlimit Hbig. unfold list_posts_query.
  rewrite bool_decide_eq_false_2 by nia.
  destruct Hbig as [Hbig | Hbig].
  - by rewrite (bool_decide_eq_true_2 (int64_max < (page - 1) * limit)).
  - rewrite (bool_decide_eq_true_2 (int64_max < Z.abs limit)) by lia.
    by rewrite orb_true_r.
Qed.

(** A request is the query part run on the filter built from [q] and
    [tag], once the parameters have passed validation. *)
Lemma list_posts_as_query (st : store) (page limit : Z) (q tag : option string) test :
  filter_test (build_filter q tag) = Some test →
  list_posts_body (Some st) page limit q tag = list_posts_query st page limit test ∧
  list_posts (Some st) page limit q tag
  = if bool_decide (1 ≤ page) && bool_decide (1 ≤ limit ≤ 50)
    then list_posts_query st page limit test
    else Some (Raise RequestValidationError).
Proof.
  intros Htest. unfold list_posts, list_posts_body, valid_query. rewrite Htest.
  split; [done |].
  repeat case_bool_decide; simpl; (done || lia).
Qed.

End listing_facts.

(** C5.  Whatever the filter, when the handler answers, the total it
    reports is the number of posts passing the filter and the number of
    pages is the ceiling of that total divided by the page size; with a page
    size of 0 the body falls back to 1 page, which cannot be reached through
    the validated entry point.  The handler answers when the number of
    posts to skip fits in 64 bits; beyond, the driver raises and nothing is
    reported. *)
Theorem pages_is_ceiling (st : Store.store) (page limit : Z) (filter_q : doc → bool) :
  store_wf st → 1 ≤ page → 0 ≤ limit →
  (∀ q tag,
     Store.filter_test (build_filter q tag) = Some filter_q →
     list_posts_body (Some st) page limit q tag
     = list_posts_query st page limit filter_q ∧
     list_posts (Some st) page limit q tag
     = (if bool_decide (1 ≤ limit ≤ 50)
        then list_posts_query st page limit filter_q
        else Some (Raise RequestValidationError))) ∧
  if bool_decide ((page - 1) * limit ≤ Store.int64_max ∧ limit ≤ Store.int64_max)
  then
    ∃ r,
      list_posts_query st page limit filter_q = Some (Ok r) ∧
      resp_total r
      = Z.of_nat (length (filter (λ d, filter_q d = true) (Store.docs st))) ∧
      (if bool_decide (limit = 0) then resp_pages r = 1
       else is_ceiling (resp_pages r) (resp_total r) limit)
  else
    list_posts_query st page limit filter_q
    = Some (Raise (OverflowError "MongoDB can only handle up to 8-byte ints")).
Proof.
  intros [Hst _] Hpage Hlimit. split.
  - intros q tag Htest.
    destruct (list_posts_as_query st page limit q tag filter_q Htest) as [Hbody Hlist].
    split; [done |]. rewrite Hlist.
    by rewrite (bool_decide_eq_true_2 (1 ≤ page)) by done.
  - case_bool_decide as Hfit.
    + destruct Hfit as [Hskip Hfit].
      destruct (list_posts_query_ok st page limit filter_q Hst Hpage Hlimit Hskip Hfit)
        as (items & Hquery & _).
      eexists. split_and!; [exact Hquery | done |].
      simpl. case_bool_decide as H0.
      * subst limit. apply page_count_zero.
      * apply page_count_ceiling. lia.
    + apply list_posts_query_overflow; [done.. |]. lia.
Qed.

Lemma pages_is_ceiling_witness :
  (∀ q tag,
     Store.filter_test (build_filter q tag) = Some (λ _, true) →
     list_posts_body (Some probe_store) 1 2 q tag
     = list_posts_query probe_store 1 2 (λ _, true) ∧
     list_posts (Some probe_store) 1 2 q tag
     = (if bool_decide (1 ≤ 2 ≤ 50)
        then list_posts_query probe_store 1 2 (λ _, true)
        else Some (Raise RequestValidationError))) ∧
  if bool_decide ((1 - 1) * 2 ≤ Store.int64_max ∧ 2 ≤ Store.int64_max)
  then
    ∃ r,
      list_posts_query probe_store 1 2 (λ _, true) = Some (Ok r) ∧
      resp_total r
      = Z.of_nat (length (filter (λ d, (λ _ : doc, true) d = true)
                            (Store.docs probe_store))) ∧
      (if bool_decide (2 = 0) then resp_pages r = 1
       else is_ceiling (resp_pages r) (resp_total r) 2)
  else
    list_posts_query probe_store 1 2 (λ _, true)
    = Some (Raise (OverflowError "MongoDB can only handle up to 8-byte ints")).
Proof.
  apply (pages_is_ceiling probe_store 1 2 (λ _, true)).
  - apply (bool_decide_unpack _). vm_compute. exact I.
  - lia.
  - lia.
Defined.

(** C6.  Whatever the filter, the items of a validated request are the
    entries of the posts that pass it, taken from the list of all such posts
    sorted by [created_at] descending: the [(page-1)*limit] first are
    skipped and at most [limit] follow.  Each entry is its post without
    [content] (and with the identifier as text), and the items are in
    descending order of [created_at] themselves.  Items are returned when
    the number of posts to skip fits in 64 bits; beyond, the driver raises
    and the handler returns nothing. *)
Theorem listing_window (st : Store.store) (page limit : Z) (filter_q : doc → bool) :
  store_wf st → 1 ≤ page → 1 ≤ limit ≤ 50 →
  (∀ q tag,
     Store.filter_test (build_filter q tag) = Some filter_q →
     list_posts (Some st) page limit q tag = list_posts_query st page limit filter_q) ∧
  if bool_decide ((page - 1) * limit ≤ Store.int64_max)
  then
    ∃ sorted r,
      sorted ≡ₚ filter (λ d, filter_q d = true) (Store.docs st) ∧
      StronglySorted Store.newer_eq sorted ∧
      list_posts_query st page limit filter_q = Some (Ok r) ∧
      Forall2 summary_of
        (take (Z.to_nat limit) (drop (Z.to_nat ((page - 1) * limit)) sorted))
        (resp_items r) ∧
      Z.of_nat (length (resp_items r)) ≤ limit ∧
      Forall (λ item, item !! "content"%string = None) (resp_items r) ∧
      Forall (λ item, ∃ d, d ∈ Store.docs st ∧ filter_q d = true ∧ summary_of d item)
        (resp_items r) ∧
      StronglySorted Store.newer_eq (resp_items r)
  else
    list_posts_query st page limit filter_q
    = Some (Raise (OverflowError "MongoDB can only handle up to 8-byte ints")).
Proof.
  intros [Hst _] Hpage Hlimit. split.
  - intros q tag Htest.
    destruct (list_posts_as_query st page limit q tag filter_q Htest) as [_ ->].
    by rewrite !bool_decide_eq_true_2 by lia.
  - case_bool_decide as Hskip;
      [| apply list_posts_query_overflow; [lia | lia | left; lia]].
    assert (limit ≤ Store.int64_max) as Hfit by (unfold Store.int64_max; lia).
    destruct (list_posts_query_ok st page limit filter_q Hst Hpage ltac:(lia) Hskip Hfit)
      as (items & Hquery & Hitems).
    unfold Store.limit, Store.skip in Hitems.
    rewrite bool_decide_eq_false_2, Z.abs_eq in Hitems by lia.
    set (sorted := Store.sort_created_desc (Store.find filter_q st)) in *.
    pose proof (sort_created_desc_sorted (Store.find filter_q st)) as Hsorted.
    pose proof (sort_created_desc_perm (Store.find filter_q st)) as Hperm.
    fold sorted in Hsorted, Hperm.
    exists sorted,
      {| resp_page := page;
         resp_limit := limit;
         resp_total := Store.count_documents filter_q st;
         resp_pages := page_count (Store.count_documents filter_q st) limit;
         resp_items := items |}.
    split_and!; [exact Hperm | exact Hsorted | exact Hquery | exact Hitems | | | |].
    + simpl. rewrite <-(Forall2_length _ _ _ Hitems), length_take. lia.
    + simpl. clear Hquery.
      induction Hitems as [|d item ?? Hd _ IH]; constructor; [| done].
      by eapply summary_of_content.
    + simpl. apply Forall2_Forall_r with (1 := Hitems).
      apply Forall_forall. intros d Hd item Hsum. exists d.
      apply subseteq_take, subseteq_drop in Hd.
      rewrite Hperm in Hd. apply list_elem_of_filter in Hd as [? ?]. done.
    + simpl. apply summary_of_sorted with (1 := Hitems).
      by apply StronglySorted_take, StronglySorted_drop.
Qed.

Lemma listing_window_witness :
  ∃ r, list_posts (Some probe_store) 1 12 (Some "a"%string) None = Some (Ok r) ∧
       Z.of_nat (length (resp_items r)) ≤ 12 ∧
       Forall (λ item, item !! "content"%string = None) (resp_items r).
Proof.
  destruct (Store.filter_test (build_filter (Some "a"%string) None))
    as [filter_q|] eqn:Htest; [| by vm_compute in Htest].
  destruct (listing_window probe_store 1 12 filter_q) as [Hlist Hwin].
  - apply (bool_decide_unpack _). vm_compute. exact I.
  - lia.
  - lia.
  - rewrite bool_decide_eq_true_2 in Hwin by (vm_compute; discriminate).
    destruct Hwin as (sorted & r & _ & _ & Hr & _ & Hlen & Hcontent & _).
    exists r. rewrite (Hlist _ _ Htest). split_and!; assumption.
Defined.

(** A page so far out that the skip does not fit in 64 bits: the request
    passes validation and the driver raises. *)
Example listing_page_beyond_int64 :
  valid_query (10 ^ 18) 50 = true ∧
  list_posts (Some probe_store) (10 ^ 18) 50 None None
  = Some (Raise (OverflowError "MongoDB can only handle up to 8-byte ints")).
Proof. split; vm_compute; reflexivity. Qed.

(** ** Single-post lookup *)

Section lookup_facts.
Import Store.

Lemma NoDup_fmap_elem_inj {A B} (f : A → B) (l : list A) (x y : A) :
  NoDup (f <$> l) → x ∈ l → y ∈ l → f x = f y → x = y.
Proof.
  induction l as [|a l IH]; simpl; [by intros _ ?%elem_of_nil |].
  rewrite NoDup_cons, !elem_of_cons. intros [Ha Hl] [-> | Hx] [-> | Hy] Hf.
  - done.
  - destruct Ha. rewrite Hf. apply list_elem_of_fmap. eauto.
  - destruct Ha. rewrite <-Hf. apply list_elem_of_fmap. eauto.
  - by apply IH.
Qed.

Lemma field_eq_slug_stored (slug : string) (d : doc) :
  stored_doc d →
  field_eq "slug" slug d = true ↔ d !! "slug"%string = Some (VStr slug).
Proof.
  intros [_ [s Hs]]. unfold field_eq. rewrite Hs, bool_decide_eq_true.
  split; [by intros -> | by intros [= ->]].
Qed.

Lemma slug_unique (st : store) (slug : string) (d d' : doc) :
  store_wf st → d ∈ docs st → d' ∈ docs st →
  d !! "slug"%string = Some (VStr slug) →
  d' !! "slug"%string = Some (VStr slug) → d' = d.
Proof.
  intros [_ Hnd] Hd Hd' Hs Hs'.
  apply (NoDup_fmap_elem_inj slug_key (docs st)); [done.. |].
  unfold slug_key. by rewrite Hs, Hs'.
Qed.

Lemma find_one_slug (st : store) (slug : string) (d : doc) :
  store_wf st → d ∈ docs st → d !! "slug"%string = Some (VStr slug) →
  find_one (field_eq "slug" slug) st = Some d.
Proof.
  intros Hwf Hd Hs. unfold find_one, find.
  assert (d ∈ filter (λ d, field_eq "slug" slug d = true) (docs st)) as Hin.
  { apply list_elem_of_filter. split; [| done].
    apply field_eq_slug_stored; [| done].
    destruct Hwf as [Hall _]. rewrite Forall_forall in Hall. by apply Hall. }
  destruct (filter _ (docs st)) as [|d' l] eqn:Hf.
  { by apply elem_of_nil in Hin. }
  simpl. f_equal.
  assert (d' ∈ filter (λ d, field_eq "slug" slug d = true) (docs st)) as Hin'.
  { rewrite Hf. by left. }
  apply list_elem_of_filter in Hin' as [Hm Hd'].
  apply (slug_unique st slug d d'); try done.
  apply field_eq_slug_stored; [| done].
  destruct Hwf as [Hall _]. rewrite Forall_forall in Hall. by apply Hall.
Qed.

Lemma find_one_slug_none (st : store) (slug : string) :
  store_wf st →
  (∀ d, d ∈ docs st → d !! "slug"%string ≠ Some (VStr slug)) →
  find_one (field_eq "slug" slug) st = None.
Proof.
  intros [Hall _] Hno. unfold find_one, find. apply head_None.
  destruct (filter _ (docs st)) as [|d l] eqn:Hf; [done |].
  assert (d ∈ filter (λ d, field_eq "slug" slug d = true) (docs st)) as Hin.
  { rewrite Hf. by left. }
  apply list_elem_of_filter in Hin as [Hm Hd].
  rewrite Forall_forall in Hall.
  apply field_eq_slug_stored in Hm; [| by apply Hall].
  by destruct (Hno d Hd).
Qed.

End lookup_facts.

(** C7.  On a store in good order, looking up a slug that some post carries
    answers with that post, the only one with the slug, with every field
    except the internal [_id] (so [content] is there); looking up a slug no
    post carries raises the 404 "Post not found" response, the ordinary
    HTTP error of the handler. *)
Theorem get_post_by_slug (st : Store.store) (slug : string) :
  store_wf st →
  (∀ d, d ∈ Store.docs st → d !! "slug"%string = Some (VStr slug) →
        get_post (Some st) slug = Ok (delete "_id"%string d) ∧
        (∀ k, k ≠ "_id"%string → delete "_id"%string d !! k = d !! k) ∧
        delete "_id"%string d !! "content"%string = d !! "content"%string ∧
        (∀ d', d' ∈ Store.docs st → d' !! "slug"%string = Some (VStr slug) → d' = d)) ∧
  ((∀ d, d ∈ Store.docs st → d !! "slug"%string ≠ Some (VStr slug)) →
   get_post (Some st) slug = Raise (HTTPException 404 "Post not found")).
Proof.
  intros Hwf. split.
  - intros d Hd Hs. split_and!.
    + unfold get_post. rewrite (find_one_slug st slug d) by done.
      rewrite bool_decide_eq_false_2; [done |].
      intros ->. by rewrite lookup_empty in Hs.
    + intros k Hk. by rewrite lookup_delete_ne.
    + by rewrite lookup_delete_ne.
    + intros d' Hd' Hs'. by apply (slug_unique st slug d d').
  - intros Hno. unfold get_post. by rewrite find_one_slug_none.
Qed.

Lemma get_post_by_slug_witness :
  get_post (Some probe_store) "a" = Ok (delete "_id"%string probe_post) ∧
  get_post (Some probe_store) "zzz" = Raise (HTTPException 404 "Post not found").
Proof.
  destruct (get_post_by_slug probe_store "a") as [Hfound _].
  { apply (bool_decide_unpack _). vm_compute. exact I. }
  destruct (get_post_by_slug probe_store "zzz") as [_ Hmissing].
  { apply (bool_decide_unpack _). vm_compute. exact I. }
  split.
  - apply (Hfound probe_post); [by left | reflexivity].
  - apply Hmissing. intros d Hd. apply list_elem_of_singleton in Hd as ->.
    vm_compute. discriminate.
Defined.

(** ** Seeding *)

Section seeding_facts.
Import Store.

(** One insertion: either the document is appended with its identifier, or
    the collection stays as it was. *)
Lemma insert_one_inserted (st : store) (d : doc) :
  (insert_one st d).2 = Inserted →
  docs (insert_one st d).1 = docs st ++ [with_id (next_oid st) (to_bson d)] ∧
  slug_taken (docs st) d = false.
Proof.
  unfold insert_one.
  destruct (faults st) as [|[] fs]; simpl;
    destruct (slug_taken (docs st) d); simpl; try done.
Qed.

Lemma insert_one_rejected (st : store) (d : doc) :
  (insert_one st d).2 ≠ Inserted → docs (insert_one st d).1 = docs st.
Proof.
  unfold insert_one.
  destruct (faults st) as [|[] fs]; simpl;
    destruct (slug_taken (docs st) d); simpl; try done.
Qed.

Lemma insert_one_duplicate (st : store) (d : doc) :
  slug_taken (docs st) d = true → (insert_one st d).2 ≠ Inserted.
Proof.
  intros Hdup. unfold insert_one. rewrite Hdup.
  by destruct (faults st) as [|[] fs].
Qed.

Lemma insert_one_no_faults (st : store) (d : doc) :
  faults st = [] →
  faults (insert_one st d).1 = [] ∧
  ((insert_one st d).2 = Inserted ↔ slug_taken (docs st) d = false).
Proof.
  intros Hf. unfold insert_one. rewrite Hf. simpl.
  destruct (slug_taken (docs st) d); simpl; split; try done.
Qed.

Lemma insert_each_cons (st : store) (d : doc) (ds : list doc) (n : Z) :
  insert_each st (d :: ds) n
  = insert_each (insert_one st d).1 ds
      (match (insert_one st d).2 with Inserted => n + 1 | _ => n end).
Proof. simpl. by destruct (insert_one st d) as [st' []]. Qed.

(** The loop only appends, and counts exactly what it appends. *)
Lemma insert_each_count (st : store) (ds : list doc) (n : Z) :
  ∃ new,
    docs (insert_each st ds n).1 = docs st ++ new ∧
    (insert_each st ds n).2 = n + Z.of_nat (length new).
Proof.
  revert st n. induction ds as [|d ds IH]; intros st n.
  - exists []. simpl. rewrite app_nil_r. split; [done | lia].
  - rewrite insert_each_cons.
    destruct (IH (insert_one st d).1
                (match (insert_one st d).2 with Inserted => n + 1 | _ => n end))
      as (new & Hdocs & Hcount).
    destruct ((insert_one st d).2) eqn:Ho.
    + destruct (insert_one_inserted st d Ho) as [Hd _].
      exists (with_id (next_oid st) (to_bson d) :: new).
      rewrite Hdocs, Hcount, Hd, <-app_assoc. simpl. split; [done | lia].
    + exists new. rewrite Hdocs, Hcount, insert_one_rejected by congruence. done.
    + exists new. rewrite Hdocs, Hcount, insert_one_rejected by congruence. done.
Qed.

Lemma slug_key_with_id (n : N) (d : doc) : slug_key (with_id n d) = slug_key d.
Proof.
  unfold with_id, slug_key. destruct (d !! "_id"%string); [done |].
  by rewrite lookup_insert_ne.
Qed.

Lemma stored_doc_with_id (n : N) (d : doc) : fresh_doc d → stored_doc (with_id n d).
Proof.
  intros [Hid [s Hs]]. unfold with_id. rewrite Hid. split.
  - exists n. by rewrite lookup_insert_eq.
  - exists s. by rewrite lookup_insert_ne.
Qed.

Lemma lookup_to_bson (d : doc) (k : string) :
  to_bson d !! k = to_bson_value <$> d !! k.
Proof. unfold to_bson. apply lookup_fmap. Qed.

Lemma fresh_to_bson (d : doc) : fresh_doc d → fresh_doc (to_bson d).
Proof.
  intros [Hid [s Hs]]. split.
  - by rewrite lookup_to_bson, Hid.
  - exists s. by rewrite lookup_to_bson, Hs.
Qed.

Lemma slug_key_to_bson (d : doc) : fresh_doc d → slug_key (to_bson d) = slug_key d.
Proof.
  intros [_ [s Hs]]. unfold slug_key. by rewrite lookup_to_bson, Hs.
Qed.

Lemma slug_taken_spec (ds : list doc) (d : doc) :
  slug_taken ds d = true ↔ slug_key (to_bson d) ∈ slug_key <$> ds.
Proof.
  unfold slug_taken. rewrite bool_decide_eq_true, Exists_exists, list_elem_of_fmap.
  split; intros (d' & ? & ?); exists d'; done.
Qed.

Lemma insert_one_wf (st : store) (d : doc) :
  store_wf st → fresh_doc d → store_wf (insert_one st d).1.
Proof.
  intros [Hall Hnd] Hd. destruct ((insert_one st d).2) eqn:Ho.
  - destruct (insert_one_inserted st d Ho) as [Hdocs Hfree].
    unfold store_wf. rewrite Hdocs. split.
    + apply Forall_app. split; [done |].
      apply Forall_singleton. by apply stored_doc_with_id, fresh_to_bson.
    + rewrite fmap_app. apply NoDup_app. split_and!; [done | | apply NoDup_singleton].
      intros k Hk. simpl. rewrite list_elem_of_singleton, slug_key_with_id.
      intros ->. apply slug_taken_spec in Hk. congruence.
  - unfold store_wf. by rewrite insert_one_rejected by congruence.
  - unfold store_wf. by rewrite insert_one_rejected by congruence.
Qed.

(** Without other failures, the loop leaves the slugs that were there plus
    those of the batch, each once. *)
Lemma insert_each_no_faults (st : store) (ds : list doc) (n : Z) :
  store_wf st → faults st = [] → Forall fresh_doc ds →
  store_wf (insert_each st ds n).1 ∧
  faults (insert_each st ds n).1 = [] ∧
  ∀ k, k ∈ slug_key <$> docs (insert_each st ds n).1
       ↔ k ∈ slug_key <$> docs st ∨ k ∈ slug_key <$> ds.
Proof.
  revert st n. induction ds as [|d ds IH]; intros st n Hwf Hf Hds.
  - simpl. split_and!; [done.. |]. intros k. rewrite elem_of_nil. tauto.
  - apply Forall_cons in Hds as [Hd Hds]. rewrite insert_each_cons.
    destruct (insert_one_no_faults st d Hf) as [Hf' Hins].
    destruct (IH (insert_one st d).1
                (match (insert_one st d).2 with Inserted => n + 1 | _ => n end)
                (insert_one_wf st d Hwf Hd) Hf' Hds) as (Hwf' & Hf'' & Hkeys).
    split_and!; [done.. |]. intros k. rewrite Hkeys, fmap_cons, elem_of_cons.
    destruct ((insert_one st d).2) eqn:Ho.
    + destruct (insert_one_inserted st d Ho) as [-> _].
      rewrite fmap_app, elem_of_app. simpl.
      rewrite list_elem_of_singleton, slug_key_with_id, slug_key_to_bson by done.
      tauto.
    + rewrite insert_one_rejected by congruence.
      assert (slug_taken (docs st) d = true) as Hdup.
      { destruct (slug_taken (docs st) d); [done |].
        destruct Hins as [_ Hins]. discriminate (Hins eq_refl). }
      apply slug_taken_spec in Hdup. rewrite slug_key_to_bson in Hdup by done.
      split; [tauto |]. intros [? | [-> | ?]]; tauto.
    + rewrite insert_one_rejected by congruence.
      assert (slug_taken (docs st) d = true) as Hdup.
      { destruct (slug_taken (docs st) d); [done |].
        destruct Hins as [_ Hins]. discriminate (Hins eq_refl). }
      apply slug_taken_spec in Hdup. rewrite slug_key_to_bson in Hdup by done.
      split; [tauto |]. intros [? | [-> | ?]]; tauto.
Qed.

Lemma fresh_make_docs (r : run) (total : Z) : Forall fresh_doc (Seed.make_docs r total).
Proof.
  unfold Seed.make_docs. apply Forall_fmap, Forall_forall. intros i _.
  split; [apply make_doc_no_id |]. eexists. apply make_doc_slug.
Qed.

Lemma slug_key_make_doc (r : run) (i : Z) :
  slug_key (Seed.make_doc r i) = VStr (Seed.slug i).
Proof. unfold slug_key. by rewrite make_doc_slug. Qed.

Lemma slug_keys_make_docs (r : run) (total : Z) :
  slug_key <$> Seed.make_docs r total = (λ i, VStr (Seed.slug i)) <$> seqZ 1 total.
Proof.
  unfold Seed.make_docs. rewrite <-list_fmap_compose.
  apply list_fmap_ext. intros ? i _. apply slug_key_make_doc.
Qed.

Lemma NoDup_generated_slugs (total : Z) :
  NoDup ((λ i, VStr (Seed.slug i)) <$> seqZ 1 total).
Proof.
  apply NoDup_fmap_2_strong; [| apply NoDup_seqZ].
  intros i j Hi%elem_of_seqZ Hj%elem_of_seqZ Heq.
  apply slug_inj; [lia | lia | congruence].
Qed.

End seeding_facts.

(** C8.  When posts are missing, seeding attempts the generated records one
    by one.  An attempt that does not insert, because the slug is taken or
    for any other reason, leaves the collection and the counter as they
    were and the loop goes on; the request always answers normally, with
    the number of records it appended and the size of the collection at the
    end. *)
Theorem seeding_best_effort (r : run) (st : Store.store) (total : Z) :
  Store.estimated_document_count st < total →
  ∃ st' inserted new,
    insert_each st (Seed.make_docs r total) 0 = (st', inserted) ∧
    seed_posts r (Some st) total
    = (Some st',
       Ok {[ "status"%string := VStr "ok";
             "inserted"%string := VInt inserted;
             "total"%string := VInt (Store.estimated_document_count st') ]}) ∧
    Store.docs st' = Store.docs st ++ new ∧
    inserted = Z.of_nat (length new) ∧
    inserted = Store.estimated_document_count st' - Store.estimated_document_count st ∧
    (∀ s d ds n,
        insert_each s (d :: ds) n
        = insert_each (Store.insert_one s d).1 ds
            (match (Store.insert_one s d).2 with Store.Inserted => n + 1 | _ => n end)) ∧
    (∀ s d, Store.slug_taken (Store.docs s) d = true →
            (Store.insert_one s d).2 ≠ Store.Inserted) ∧
    (∀ s d, (Store.insert_one s d).2 ≠ Store.Inserted →
            Store.docs (Store.insert_one s d).1 = Store.docs s).
Proof.
  intros Hlt.
  destruct (insert_each_count st (Seed.make_docs r total) 0) as (new & Hdocs & Hcount).
  destruct (insert_each st (Seed.make_docs r total) 0) as [st' inserted] eqn:Hloop.
  simpl in Hdocs, Hcount. exists st', inserted, new. split_and!.
  - done.
  - unfold seed_posts. rewrite bool_decide_eq_false_2 by lia. by rewrite Hloop.
  - done.
  - lia.
  - unfold Store.estimated_document_count. rewrite Hdocs, length_app. lia.
  - apply insert_each_cons.
  - apply insert_one_duplicate.
  - apply insert_one_rejected.
Qed.

Lemma seeding_best_effort_witness :
  ∃ st' inserted new,
    insert_each flaky_store (Seed.make_docs (default_run 0) 2) 0 = (st', inserted) ∧
    seed_posts (default_run 0) (Some flaky_store) 2
    = (Some st',
       Ok {[ "status"%string := VStr "ok";
             "inserted"%string := VInt inserted;
             "total"%string := VInt (Store.estimated_document_count st') ]}) ∧
    Store.docs st' = Store.docs flaky_store ++ new ∧
    inserted = Z.of_nat (length new) ∧
    inserted
    = Store.estimated_document_count st' - Store.estimated_document_count flaky_store ∧
    (∀ s d ds n,
        insert_each s (d :: ds) n
        = insert_each (Store.insert_one s d).1 ds
            (match (Store.insert_one s d).2 with Store.Inserted => n + 1 | _ => n end)) ∧
    (∀ s d, Store.slug_taken (Store.docs s) d = true →
            (Store.insert_one s d).2 ≠ Store.Inserted) ∧
    (∀ s d, (Store.insert_one s d).2 ≠ Store.Inserted →
            Store.docs (Store.insert_one s d).1 = Store.docs s).
Proof.
  apply (seeding_best_effort (default_run 0) flaky_store 2).
  vm_compute. reflexivity.
Defined.

(** With one failing attempt, two records requested: one inserted, one
    post in total. *)
Example seed_flaky_store :
  reported "inserted" (seed_posts (default_run 0) (Some flaky_store) 2).2 = Some (VInt 1) ∧
  reported "total" (seed_posts (default_run 0) (Some flaky_store) 2).2 = Some (VInt 1).
Proof. split; vm_compute; reflexivity. Qed.

(** C2 (as amended).  Take a store in good order with fewer than [T] posts,
    all of them carrying generated slugs of indices [1..T] (the empty store
    is one), and no insertion failing for a reason other than a duplicate
    slug.  Two seed requests for [T] in a row leave exactly [T] posts.  The
    first reports the shortfall as inserted and [T] as total; the second
    inserts nothing, leaves the store as it is, and answers with the
    "already has [T] posts" message, which has no [inserted] entry. *)
Theorem seed_twice_idempotent (r1 r2 : run) (st : Store.store) (T : Z) :
  store_wf st → Store.faults st = [] →
  Forall (λ d, ∃ i, 1 ≤ i ≤ T ∧ d !! "slug"%string = Some (VStr (Seed.slug i)))
    (Store.docs st) →
  Store.estimated_document_count st < T →
  ∃ st1,
    seed_posts r1 (Some st) T
    = (Some st1,
       Ok {[ "status"%string := VStr "ok";
             "inserted"%string := VInt (T - Store.estimated_document_count st);
             "total"%string := VInt T ]}) ∧
    Store.estimated_document_count st1 = T ∧
    seed_posts r2 (Some st1) T
    = (Some st1,
       Ok {[ "status"%string := VStr "ok";
             "message"%string := VStr (already_message T) ]}) ∧
    seed_twice r1 r2 st T
    = (Some st1,
       Ok {[ "status"%string := VStr "ok";
             "inserted"%string := VInt (T - Store.estimated_document_count st);
             "total"%string := VInt T ]},
       Ok {[ "status"%string := VStr "ok";
             "message"%string := VStr (already_message T) ]}).
Proof.
  intros Hwf Hfaults Hgen Hlt.
  destruct (insert_each_count st (Seed.make_docs r1 T) 0) as (new & Hdocs & Hcount).
  destruct (insert_each_no_faults st (Seed.make_docs r1 T) 0 Hwf Hfaults
              (fresh_make_docs r1 T)) as ([_ Hnd] & _ & Hkeys).
  destruct (insert_each st (Seed.make_docs r1 T) 0) as [st1 inserted] eqn:Hloop.
  simpl in Hdocs, Hcount, Hnd, Hkeys.
  assert (Store.estimated_document_count st1 = T) as Hsize.
  { unfold Store.estimated_document_count in *.
    assert (Store.slug_key <$> Store.docs st1
            ≡ₚ (λ i, VStr (Seed.slug i)) <$> seqZ 1 T) as Hperm.
    { apply NoDup_Permutation; [done | apply NoDup_generated_slugs |].
      intros k. rewrite Hkeys, slug_keys_make_docs. split; [| tauto].
      intros [Hk | Hk]; [| done].
      apply list_elem_of_fmap in Hk as (d & -> & Hd).
      rewrite Forall_forall in Hgen. destruct (Hgen d Hd) as (i & Hi & Hs).
      apply list_elem_of_fmap. exists i. split.
      - unfold Store.slug_key. by rewrite Hs.
      - apply elem_of_seqZ. lia. }
    apply Permutation_length in Hperm.
    rewrite !length_fmap, length_seqZ in Hperm. lia. }
  assert (inserted = T - Store.estimated_document_count st) as Hins.
  { unfold Store.estimated_document_count in *.
    rewrite Hdocs, length_app in Hsize. lia. }
  assert (seed_posts r1 (Some st) T
          = (Some st1,
             Ok {[ "status"%string := VStr "ok";
                   "inserted"%string := VInt (T - Store.estimated_document_count st);
                   "total"%string := VInt T ]})) as H1.
  { unfold seed_posts. rewrite bool_decide_eq_false_2 by lia.
    rewrite Hloop, Hsize, Hins. done. }
  assert (seed_posts r2 (Some st1) T
          = (Some st1,
             Ok {[ "status"%string := VStr "ok";
                   "message"%string := VStr (already_message T) ]})) as H2.
  { unfold seed_posts. rewrite bool_decide_eq_true_2 by lia. by rewrite Hsize. }
  exists st1. split_and!; [done.. |].
  unfold seed_twice. by rewrite H1, H2.
Qed.

Lemma seed_twice_idempotent_witness :
  ∃ st1,
    seed_posts (default_run 0) (Some Store.empty) 3
    = (Some st1,
       Ok {[ "status"%string := VStr "ok";
             "inserted"%string := VInt (3 - Store.estimated_document_count Store.empty);
             "total"%string := VInt 3 ]}) ∧
    Store.estimated_document_count st1 = 3 ∧
    seed_posts (default_run 5) (Some st1) 3
    = (Some st1,
       Ok {[ "status"%string := VStr "ok";
             "message"%string := VStr (already_message 3) ]}) ∧
    seed_twice (default_run 0) (default_run 5) Store.empty 3
    = (Some st1,
       Ok {[ "status"%string := VStr "ok";
             "inserted"%string := VInt (3 - Store.estimated_document_count Store.empty);
             "total"%string := VInt 3 ]},
       Ok {[ "status"%string := VStr "ok";
             "message"%string := VStr (already_message 3) ]}).
Proof.
  apply (seed_twice_idempotent (default_run 0) (default_run 5) Store.empty 3).
  - apply (bool_decide_unpack _). vm_compute. exact I.
  - reflexivity.
  - constructor.
  - vm_compute. reflexivity.
Defined.

(** C2 (as stated) fails.  From the empty store the second request answers
    with a message and no [inserted] entry at all.  From a store with one
    post of another origin, fewer than the 2 asked for, two requests leave 3
    posts.  And when one attempt of the first request fails, the second
    request makes up for it and reports 1 inserted. *)
Lemma seed_twice_not_as_stated :
  reported "inserted" (seed_twice (default_run 0) (default_run 0) Store.empty 2).2 = None ∧
  reported "message" (seed_twice (default_run 0) (default_run 0) Store.empty 2).2
  = Some (VStr "Database already has 2 posts") ∧
  posts_after (seed_twice (default_run 0) (default_run 0) Store.empty 2) = Some 2 ∧
  Store.estimated_document_count probe_store < 2 ∧
  posts_after (seed_twice (default_run 0) (default_run 0) probe_store 2) = Some 3 ∧
  reported "inserted" (seed_twice (default_run 0) (default_run 0) flaky_store 2).2
  = Some (VInt 1).
Proof. split_and!; vm_compute; reflexivity. Qed.

(** The scenario of the specification: five posts, the third by its slug,
    the first page of two. *)
Example seed_five_scenario :
  let db := (seed_posts (default_run 0) (Some Store.empty) 5).1 in
  (λ st, (λ d, d !! "slug"%string) <$> Store.docs st) <$> db
  = Some [ Some (VStr "sample-blog-post-0001"); Some (VStr "sample-blog-post-0002");
           Some (VStr "sample-blog-post-0003"); Some (VStr "sample-blog-post-0004");
           Some (VStr "sample-blog-post-0005") ] ∧
  reported "title" (get_post db "sample-blog-post-0003")
  = Some (VStr "Sample Blog Post 0003") ∧
  (match list_posts db 1 2 None None with
   | Some (Ok r) => Some (length (resp_items r), resp_total r, resp_pages r)
   | _ => None
   end) = Some (2%nat, 5, 3).
Proof. cbv zeta. split_and!; vm_compute; reflexivity. Qed.

(** * Further properties *)

(** ** The generator, beyond the first 9999 posts *)

Section generator_extras.
Import Text Seed.

Lemma kebab_lower_app (s t : string) :
  kebab_lower (s +:+ t) = kebab_lower s +:+ kebab_lower t.
Proof. induction s as [|c s IH]; simpl; [done | by rewrite IH]. Qed.

Lemma kebab_lower_zeros (n : nat) :
  kebab_lower (repeat_char n "0"%char) = repeat_char n "0"%char.
Proof. induction n as [|n IH]; simpl; [done | by rewrite IH]. Qed.

Lemma kebab_lower_digit (x : N) (s : string) :
  kebab_lower s = s →
  kebab_lower (String (pretty_N_char x) s) = String (pretty_N_char x) s.
Proof.
  intros Hs. simpl. rewrite Hs. f_equal.
  unfold pretty_N_char. by repeat case_match.
Qed.

Lemma kebab_lower_pretty_N_go (x : N) (s : string) :
  kebab_lower s = s → kebab_lower (pretty_N_go x s) = pretty_N_go x s.
Proof.
  revert s. induction (N.lt_wf_0 x) as [x _ IH]. intros s Hs.
  destruct (decide (x = 0%N)) as [-> | Hne].
  { by rewrite pretty_N_go_0. }
  rewrite pretty_N_go_step by lia. apply IH.
  - apply N.div_lt; lia.
  - by apply kebab_lower_digit.
Qed.

Lemma kebab_lower_str (i : Z) : kebab_lower (str i) = str i.
Proof.
  destruct i as [|p|p]; [done | |].
  - unfold str, pretty, pretty_Z, pretty, pretty_positive, pretty, pretty_N.
    rewrite decide_False by done. by apply kebab_lower_pretty_N_go.
  - unfold str, pretty, pretty_Z, pretty, pretty_positive, pretty, pretty_N.
    rewrite decide_False by done. simpl. f_equal.
    by apply kebab_lower_pretty_N_go.
Qed.

Lemma kebab_lower_zfill (w : nat) (s : string) :
  kebab_lower s = s → kebab_lower (zfill w s) = zfill w s.
Proof.
  intros Hs. unfold zfill. destruct s as [|c rest].
  - apply kebab_lower_zeros.
  - simpl in Hs. injection Hs as Hc Hrest. destruct (is_sign c).
    + simpl. by rewrite Hc, kebab_lower_app, kebab_lower_zeros, Hrest.
    + rewrite kebab_lower_app, kebab_lower_zeros. simpl. by rewrite Hc, Hrest.
Qed.

Lemma pick_elem_of (pool : list string) (k : Z) : pool ≠ [] → pick pool k ∈ pool.
Proof.
  intros Hne. eapply list_elem_of_lookup_2. by apply pick_lookup.
Qed.

Lemma pick_periodic (pool : list string) (i k : Z) :
  pick pool (i + Z.of_nat (length pool) * k) = pick pool i.
Proof.
  unfold pick. f_equal. f_equal.
  rewrite (Z.mul_comm (Z.of_nat (length pool)) k). apply Z_mod_plus_full.
Qed.

End generator_extras.

(** X1.  Posts with different indices get different slugs and different
    titles, also past index 9999 where the index string grows beyond four
    characters. *)
Theorem slug_title_injective (i j : Z) :
  1 ≤ i → 1 ≤ j →
  (Seed.slug i = Seed.slug j ↔ i = j) ∧ (Seed.title i = Seed.title j ↔ i = j).
Proof.
  intros Hi Hj. split; (split; [| by intros ->]).
  - by apply slug_inj.
  - intros Heq. apply idx_inj; [done.. |].
    unfold Seed.title in Heq. by simplify_eq/=.
Qed.

Lemma slug_title_injective_witness :
  (Seed.slug 9999 = Seed.slug 19999 ↔ 9999 = 19999) ∧
  (Seed.title 9999 = Seed.title 19999 ↔ 9999 = 19999).
Proof. apply (slug_title_injective 9999 19999); lia. Defined.

(** X2.  Every generated document is a complete post: it has exactly the
    nine fields and no [_id], its text fields are text, its tags all come
    from the tag pool, its author from the author pool, the cover image is
    null, and the creation and update dates are both the clock value of the
    run. *)
Theorem generated_post_well_formed (r : run) (i : Z) :
  post_shaped (Seed.make_doc r i) ∧
  fresh_doc (Seed.make_doc r i) ∧
  dom (Seed.make_doc r i)
  = ({[ "title"; "slug"; "excerpt"; "content"; "author"; "tags"; "cover_image";
        "created_at"; "updated_at" ]} : gset string)%string ∧
  Forall (λ t, t ∈ Seed.tag_pool) (Seed.tags r i) ∧
  Seed.author i ∈ Seed.authors ∧
  Seed.make_doc r i !! "cover_image"%string = Some VNull ∧
  Seed.make_doc r i !! "created_at"%string = Some (VTime (now r)) ∧
  Seed.make_doc r i !! "updated_at"%string = Some (VTime (now r)).
Proof.
  split_and!; try reflexivity.
  - unfold post_shaped. by repeat eexists.
  - split; [reflexivity | by eexists].
  - apply Forall_forall. intros t Ht. apply elem_of_tags in Ht.
    destruct Ht as [-> | [-> | ->]]; by apply pick_elem_of.
  - by apply pick_elem_of.
Qed.

(** X3.  The slug of a generated post is its title in lower case with a
    hyphen for each space, whatever the index. *)
Theorem slug_is_kebab_title (i : Z) : Seed.slug i = kebab_lower (Seed.title i).
Proof.
  unfold Seed.slug, Seed.title, Seed.idx.
  rewrite kebab_lower_app, kebab_lower_zfill by apply kebab_lower_str.
  reflexivity.
Qed.

(** X4.  Tags and author depend on the index modulo 10 and the paragraphs on
    the index modulo 5: shifting the index by a multiple of 10 changes
    neither the tag list, nor the author, nor the paragraphs of the excerpt
    and the content. *)
Theorem generation_periodic (r : run) (i k : Z) :
  Seed.tags r (i + 10 * k) = Seed.tags r i ∧
  Seed.author (i + 10 * k) = Seed.author i ∧
  Seed.pick Seed.lorem_paras (i + 10 * k + 0) = Seed.pick Seed.lorem_paras (i + 0) ∧
  Seed.pick Seed.lorem_paras (i + 10 * k + 1) = Seed.pick Seed.lorem_paras (i + 1) ∧
  Seed.pick Seed.lorem_paras (i + 10 * k + 2) = Seed.pick Seed.lorem_paras (i + 2).
Proof.
  assert (∀ j, Seed.pick Seed.tag_pool (j + 10 * k) = Seed.pick Seed.tag_pool j) as Htag.
  { intros j. apply (pick_periodic Seed.tag_pool). }
  assert (∀ j c, Seed.pick Seed.lorem_paras (j + 10 * k + c)
                 = Seed.pick Seed.lorem_paras (j + c)) as Hpara.
  { intros j c. replace (j + 10 * k + c) with ((j + c) + 5 * (2 * k)) by lia.
    apply (pick_periodic Seed.lorem_paras). }
  split_and!; try apply Hpara.
  - unfold Seed.tags, Seed.tag_set. rewrite Htag.
    replace ((i + 10 * k) * 3) with (i * 3 + 10 * (k * 3)) by lia.
    replace ((i + 10 * k) * 7) with (i * 7 + 10 * (k * 7)) by lia.
    by rewrite !(pick_periodic Seed.tag_pool).
  - apply (pick_periodic Seed.authors).
Qed.

(** ** Seeding and lookup together *)

Section seeding_extras.
Import Store.

Lemma insert_each_wf (st : store) (ds : list doc) (n : Z) :
  store_wf st → Forall fresh_doc ds → store_wf (insert_each st ds n).1.
Proof.
  revert st n. induction ds as [|d ds IH]; intros st n Hwf Hds; [done |].
  apply Forall_cons in Hds as [Hd Hds]. rewrite insert_each_cons.
  apply IH; [by apply insert_one_wf | done].
Qed.

Lemma insert_each_bounds (st : store) (ds : list doc) (n : Z) :
  n ≤ (insert_each st ds n).2 ≤ n + Z.of_nat (length ds).
Proof.
  revert st n. induction ds as [|d ds IH]; intros st n; simpl length.
  - simpl. lia.
  - rewrite insert_each_cons.
    pose proof (IH (insert_one st d).1
                  (match (insert_one st d).2 with Inserted => n + 1 | _ => n end)).
    destruct ((insert_one st d).2); lia.
Qed.

(** What a seed request leaves is what was there, followed by what it
    added. *)
Lemma seed_posts_appends (r : run) (st : store) (total : Z) :
  ∃ st' new, (seed_posts r (Some st) total).1 = Some st' ∧ docs st' = docs st ++ new.
Proof.
  unfold seed_posts. case_bool_decide.
  - exists st, []. by rewrite app_nil_r.
  - destruct (insert_each_count st (Seed.make_docs r total) 0) as (new & Hdocs & _).
    destruct (insert_each st (Seed.make_docs r total) 0) as [st' inserted].
    by exists st', new.
Qed.

Lemma insert_each_stores (st : store) (ds : list doc) (n : Z) (d : doc) :
  faults st = [] → Forall fresh_doc ds → NoDup (slug_key <$> ds) → d ∈ ds →
  slug_key d ∉ slug_key <$> docs st →
  ∃ oid, with_id oid (to_bson d) ∈ docs (insert_each st ds n).1.
Proof.
  revert st n. induction ds as [|d0 ds IH]; intros st n Hf Hfresh Hnd Hd Hfree.
  { by apply elem_of_nil in Hd. }
  rewrite fmap_cons in Hnd. apply NoDup_cons in Hnd as [Hd0 Hnd].
  apply Forall_cons in Hfresh as [Hfresh0 Hfresh].
  rewrite insert_each_cons.
  destruct (insert_one_no_faults st d0 Hf) as [Hf' Hins].
  set (n' := match (insert_one st d0).2 with Inserted => n + 1 | _ => n end).
  apply elem_of_cons in Hd as [-> | Hd].
  - assert ((insert_one st d0).2 = Inserted) as Ho.
    { apply Hins. destruct (slug_taken (docs st) d0) eqn:Ht; [| done].
      apply slug_taken_spec in Ht. by rewrite slug_key_to_bson in Ht. }
    destruct (insert_one_inserted st d0 Ho) as [Hdocs _].
    destruct (insert_each_count (insert_one st d0).1 ds n') as (new & -> & _).
    exists (next_oid st). rewrite Hdocs, !elem_of_app, list_elem_of_singleton. tauto.
  - apply IH; [done.. |].
    assert (slug_key d ≠ slug_key d0) as Hne.
    { intros Heq. apply Hd0. rewrite <-Heq. apply list_elem_of_fmap. eauto. }
    destruct ((insert_one st d0).2) eqn:Ho.
    + destruct (insert_one_inserted st d0 Ho) as [-> _].
      rewrite fmap_app, elem_of_app. simpl.
      rewrite list_elem_of_singleton, slug_key_with_id, slug_key_to_bson by done.
      tauto.
    + by rewrite insert_one_rejected by congruence.
    + by rewrite insert_one_rejected by congruence.
Qed.

Lemma head_filter_split {A} (P : A → Prop) `{!∀ x, Decision (P x)} (l : list A) (x : A) :
  head (filter P l) = Some x →
  ∃ l1 l2, l = l1 ++ x :: l2 ∧ Forall (λ y, ¬ P y) l1 ∧ P x.
Proof.
  induction l as [|a l IH]; [done |].
  rewrite filter_cons. destruct (decide (P a)) as [Ha | Ha]; simpl.
  - intros [= ->]. by exists [], l.
  - intros (l1 & l2 & -> & Hl1 & Hx)%IH.
    exists (a :: l1), l2. split_and!; [done | by constructor | done].
Qed.

Lemma first_match_unique {A} (f : A → bool) (b b' a a' : list A) (x x' : A) :
  b ++ x :: a = b' ++ x' :: a' →
  Forall (λ y, f y = false) b → f x = true →
  Forall (λ y, f y = false) b' → f x' = true →
  x = x'.
Proof.
  revert b'. induction b as [|y b IH]; intros [|y' b'] Heq Hb Hx Hb' Hx';
    simpl in Heq; injection Heq as Hhd Htl.
  - done.
  - apply Forall_cons in Hb' as [Hy' _]. congruence.
  - apply Forall_cons in Hb as [Hy _]. congruence.
  - apply Forall_cons in Hb as [_ Hb]. apply Forall_cons in Hb' as [_ Hb'].
    by apply (IH b').
Qed.

Lemma get_post_cases (st : store) (slug : string) :
  match find_one (field_eq "slug" slug) st with
  | Some d0 => field_eq "slug" slug d0 = true ∧ d0 ∈ docs st ∧
               get_post (Some st) slug = Ok (delete "_id"%string d0)
  | None => Forall (λ d, field_eq "slug" slug d = false) (docs st) ∧
            get_post (Some st) slug = Raise (HTTPException 404 "Post not found")
  end.
Proof.
  unfold get_post. destruct (find_one _ st) as [d0|] eqn:Hfind.
  - unfold find_one, find in Hfind.
    apply head_filter_split in Hfind as (l1 & l2 & Hdocs & _ & Hm).
    split_and!; [done | rewrite Hdocs; set_solver |].
    rewrite bool_decide_eq_false_2; [done |].
    intros ->. unfold field_eq in Hm. by rewrite lookup_empty in Hm.
  - split; [| done]. unfold find_one, find in Hfind.
    apply head_None in Hfind. apply Forall_forall. intros d Hd.
    destruct (field_eq "slug" slug d) eqn:Hm; [| done].
    assert (d ∈ filter (λ d, field_eq "slug" slug d = true) (docs st)) as Hin
      by by apply list_elem_of_filter.
    rewrite Hfind in Hin. by apply elem_of_nil in Hin.
Qed.

End seeding_extras.

(** X5.  Seeding keeps the store in good order, whatever the target and
    whichever attempts fail: afterwards every post still has its identifier
    and a text slug, no two posts share a slug, and the posts that were
    there are still there, unchanged and in the same place. *)
Theorem seeding_keeps_store_wf (r : run) (st : Store.store) (total : Z) :
  store_wf st →
  ∃ st' new,
    (seed_posts r (Some st) total).1 = Some st' ∧
    store_wf st' ∧
    Store.docs st' = Store.docs st ++ new.
Proof.
  intros Hwf. destruct (seed_posts_appends r st total) as (st' & new & Hst' & Hdocs).
  exists st', new. split_and!; [done | | done].
  unfold seed_posts in Hst'. case_bool_decide.
  - simpl in Hst'. by injection Hst' as <-.
  - pose proof (insert_each_wf st (Seed.make_docs r total) 0 Hwf (fresh_make_docs r total))
      as Hwf'.
    destruct (insert_each st (Seed.make_docs r total) 0) as [st'' inserted].
    simpl in Hst', Hwf'. by injection Hst' as <-.
Qed.

Lemma seeding_keeps_store_wf_witness :
  ∃ st' new,
    (seed_posts (default_run 0) (Some probe_store) 3).1 = Some st' ∧
    store_wf st' ∧
    Store.docs st' = Store.docs probe_store ++ new.
Proof.
  apply (seeding_keeps_store_wf (default_run 0) probe_store 3).
  apply (bool_decide_unpack _). vm_compute. exact I.
Defined.

(** X6.  A seed request that has work to do never reports more insertions
    than the target, nor a negative number, and the total it reports is the
    count it found plus the insertions it reports. *)
Theorem seeding_report_bounds (r : run) (st : Store.store) (total : Z) :
  Store.estimated_document_count st < total →
  ∃ inserted,
    reported "inserted" (seed_posts r (Some st) total).2 = Some (VInt inserted) ∧
    0 ≤ inserted ≤ total ∧
    reported "total" (seed_posts r (Some st) total).2
    = Some (VInt (Store.estimated_document_count st + inserted)).
Proof.
  intros Hlt.
  destruct (insert_each_count st (Seed.make_docs r total) 0) as (new & Hdocs & Hcount).
  pose proof (insert_each_bounds st (Seed.make_docs r total) 0) as Hb.
  unfold seed_posts. rewrite bool_decide_eq_false_2 by lia.
  destruct (insert_each st (Seed.make_docs r total) 0) as [st' inserted].
  simpl in *. exists inserted. split_and!.
  - reflexivity.
  - lia.
  - unfold Seed.make_docs in Hb. rewrite length_fmap, length_seqZ in Hb.
    pose proof (Zle_0_nat (length (Store.docs st))).
    unfold Store.estimated_document_count in Hlt. lia.
  - unfold Store.estimated_document_count. rewrite Hdocs, length_app.
    replace (Z.of_nat (length (Store.docs st)) + inserted)
      with (Z.of_nat (length (Store.docs st) + length new)) by lia.
    reflexivity.
Qed.

Lemma seeding_report_bounds_witness :
  ∃ inserted,
    reported "inserted" (seed_posts (default_run 0) (Some flaky_store) 2).2
    = Some (VInt inserted) ∧
    0 ≤ inserted ≤ 2 ∧
    reported "total" (seed_posts (default_run 0) (Some flaky_store) 2).2
    = Some (VInt (Store.estimated_document_count flaky_store + inserted)).
Proof.
  apply (seeding_report_bounds (default_run 0) flaky_store 2).
  vm_compute. reflexivity.
Defined.

(** X7.  When no attempt fails for a reason other than a duplicate slug, a
    seed request on a store in good order reaches its target whatever the
    store held: afterwards there are at least [T] posts, every generated
    slug of [1..T] is carried by a post, and a further request for [T] is
    turned away with the "already has" message and changes nothing. *)
Theorem seed_reaches_target (r r2 : run) (st : Store.store) (T : Z) :
  store_wf st → Store.faults st = [] →
  Store.estimated_document_count st < T →
  ∃ st1,
    (seed_posts r (Some st) T).1 = Some st1 ∧
    T ≤ Store.estimated_document_count st1 ∧
    (∀ i, 1 ≤ i ≤ T →
       ∃ d, d ∈ Store.docs st1 ∧ d !! "slug"%string = Some (VStr (Seed.slug i))) ∧
    seed_posts r2 (Some st1) T
    = (Some st1,
       Ok {[ "status"%string := VStr "ok";
             "message"%string
               := VStr (already_message (Store.estimated_document_count st1)) ]}).
Proof.
  intros Hwf Hfaults Hlt.
  destruct (insert_each_no_faults st (Seed.make_docs r T) 0 Hwf Hfaults
              (fresh_make_docs r T)) as ([_ Hnd] & _ & Hkeys).
  unfold seed_posts at 1. rewrite bool_decide_eq_false_2 by lia.
  destruct (insert_each st (Seed.make_docs r T) 0) as [st1 inserted].
  simpl in Hnd, Hkeys. exists st1.
  assert (∀ i, 1 ≤ i ≤ T → VStr (Seed.slug i) ∈ Store.slug_key <$> Store.docs st1) as Hgen.
  { intros i Hi. apply Hkeys. right. rewrite slug_keys_make_docs.
    apply list_elem_of_fmap. exists i. split; [done |]. apply elem_of_seqZ. lia. }
  assert (T ≤ Store.estimated_document_count st1) as Hsize.
  { unfold Store.estimated_document_count.
    assert ((λ i, VStr (Seed.slug i)) <$> seqZ 1 T ⊆+ Store.slug_key <$> Store.docs st1)
      as Hsub.
    { apply NoDup_submseteq; [apply NoDup_generated_slugs |].
      intros k (i & -> & Hi%elem_of_seqZ)%list_elem_of_fmap. apply Hgen. lia. }
    apply submseteq_length in Hsub.
    rewrite !length_fmap, length_seqZ in Hsub. lia. }
  split_and!; [done | done | |].
  - intros i Hi. apply Hgen, list_elem_of_fmap in Hi as (d & Hk & Hd).
    exists d. split; [done |]. unfold Store.slug_key in Hk.
    destruct (d !! "slug"%string) as [v|]; simpl in Hk; [by subst v | done].
  - unfold seed_posts. by rewrite bool_decide_eq_true_2.
Qed.

Lemma seed_reaches_target_witness :
  ∃ st1,
    (seed_posts (default_run 0) (Some probe_store) 2).1 = Some st1 ∧
    2 ≤ Store.estimated_document_count st1 ∧
    (∀ i, 1 ≤ i ≤ 2 →
       ∃ d, d ∈ Store.docs st1 ∧ d !! "slug"%string = Some (VStr (Seed.slug i))) ∧
    seed_posts (default_run 9) (Some st1) 2
    = (Some st1,
       Ok {[ "status"%string := VStr "ok";
             "message"%string
               := VStr (already_message (Store.estimated_document_count st1)) ]}).
Proof.
  apply (seed_reaches_target (default_run 0) (default_run 9) probe_store 2).
  - apply (bool_decide_unpack _). vm_compute. exact I.
  - reflexivity.
  - vm_compute. reflexivity.
Defined.

(** X8.  Insert, then look up: after a seed request during which no attempt
    fails for another reason than a duplicate, every generated slug that
    was free before resolves, through [get_post], to the document the
    generator made for its index as the store keeps it: every field is the
    generated one, except that the two dates come back cut to the
    millisecond. *)
Theorem seeded_post_round_trip (r : run) (st : Store.store) (T i : Z) :
  store_wf st → Store.faults st = [] →
  Store.estimated_document_count st < T →
  1 ≤ i ≤ T →
  (∀ d, d ∈ Store.docs st → d !! "slug"%string ≠ Some (VStr (Seed.slug i))) →
  ∃ d,
    get_post (seed_posts r (Some st) T).1 (Seed.slug i) = Ok d ∧
    (∀ k, k ≠ "created_at"%string → k ≠ "updated_at"%string →
          d !! k = Seed.make_doc r i !! k) ∧
    d !! "created_at"%string = Some (VTime (now r - now r `mod` 1000)) ∧
    d !! "updated_at"%string = Some (VTime (now r - now r `mod` 1000)).
Proof.
  intros Hwf Hfaults Hlt Hi Hfree.
  destruct (insert_each_no_faults st (Seed.make_docs r T) 0 Hwf Hfaults
              (fresh_make_docs r T)) as (Hwf1 & _ & _).
  destruct (insert_each_stores st (Seed.make_docs r T) 0 (Seed.make_doc r i) Hfaults)
    as [oid Hin].
  { apply fresh_make_docs. }
  { rewrite slug_keys_make_docs. apply NoDup_generated_slugs. }
  { unfold Seed.make_docs. apply list_elem_of_fmap. exists i. split; [done |].
    apply elem_of_seqZ. lia. }
  { rewrite slug_key_make_doc.
    intros (d & Hk & Hd)%list_elem_of_fmap. apply (Hfree d Hd).
    unfold Store.slug_key in Hk.
    destruct (d !! "slug"%string) as [v|]; simpl in Hk; [by subst v | done]. }
  exists (Store.to_bson (Seed.make_doc r i)). split_and!.
  - unfold seed_posts. rewrite bool_decide_eq_false_2 by lia.
    destruct (insert_each st (Seed.make_docs r T) 0) as [st1 inserted].
    simpl in *. unfold get_post.
    assert (Store.to_bson (Seed.make_doc r i) !! "_id"%string = None) as Hnoid.
    { by rewrite lookup_to_bson, make_doc_no_id. }
    rewrite (find_one_slug st1 (Seed.slug i)
               (Store.with_id oid (Store.to_bson (Seed.make_doc r i))));
      [| done | done |].
    + unfold Store.with_id. rewrite Hnoid.
      rewrite bool_decide_eq_false_2.
      * by rewrite delete_insert_id.
      * intros Hempty. apply (f_equal (λ m : doc, m !! "_id"%string)) in Hempty.
        by rewrite lookup_insert_eq, lookup_empty in Hempty.
    + unfold Store.with_id. rewrite Hnoid.
      by rewrite lookup_insert_ne, lookup_to_bson, make_doc_slug.
  - intros k Hc Hu. rewrite lookup_to_bson. unfold Seed.make_doc.
    rewrite !lookup_insert, lookup_singleton.
    repeat case_decide; simplify_eq; done.
  - by rewrite lookup_to_bson, make_doc_created.
  - rewrite lookup_to_bson. reflexivity.
Qed.

Lemma seeded_post_round_trip_witness :
  ∃ d,
    get_post (seed_posts (default_run 1234567) (Some probe_store) 3).1 (Seed.slug 2)
    = Ok d ∧
    (∀ k, k ≠ "created_at"%string → k ≠ "updated_at"%string →
          d !! k = Seed.make_doc (default_run 1234567) 2 !! k) ∧
    d !! "created_at"%string
    = Some (VTime (now (default_run 1234567) - now (default_run 1234567) `mod` 1000)) ∧
    d !! "updated_at"%string
    = Some (VTime (now (default_run 1234567) - now (default_run 1234567) `mod` 1000)).
Proof.
  apply (seeded_post_round_trip (default_run 1234567) probe_store 3 2).
  - apply (bool_decide_unpack _). vm_compute. exact I.
  - reflexivity.
  - vm_compute. reflexivity.
  - lia.
  - intros d Hd. apply list_elem_of_singleton in Hd as ->. vm_compute. discriminate.
Defined.

(** A clock value of 1234567 microseconds is stored as 1234000. *)
Example seeded_dates_cut_to_milliseconds :
  match get_post (seed_posts (default_run 1234567) (Some Store.empty) 1).1
          (Seed.slug 1) with
  | Ok d => d !! "created_at"%string
  | Raise _ => None
  end = Some (VTime 1234000).
Proof. vm_compute. reflexivity. Qed.

(** X9.  A seed request never takes a post away from its slug: a lookup
    that succeeded before the request gives the same answer after it,
    whatever the target and whichever attempts fail. *)
Theorem lookup_survives_seeding (r : run) (st : Store.store) (total : Z)
    (slug : string) (d : doc) :
  get_post (Some st) slug = Ok d →
  get_post (seed_posts r (Some st) total).1 slug = Ok d.
Proof.
  intros Hget.
  destruct (seed_posts_appends r st total) as (st' & new & -> & Hdocs).
  pose proof (get_post_cases st slug) as Hold.
  unfold get_post in *. unfold Store.find_one, Store.find in *.
  rewrite Hdocs, filter_app.
  destruct (filter _ (Store.docs st)) as [|d0 l]; simpl in *; [done |].
  exact Hget.
Qed.

Lemma lookup_survives_seeding_witness :
  get_post (seed_posts (default_run 0) (Some probe_store) 4).1 "a"
  = Ok (delete "_id"%string probe_post).
Proof.
  apply (lookup_survives_seeding (default_run 0) probe_store 4 "a").
  vm_compute. reflexivity.
Defined.

(** X10.  On any store, [get_post] answers with a post exactly when some
    stored document matches the slug: the answer is then the first match in
    the order of the collection, without its [_id]; otherwise the answer is
    the 404 error, and no other error occurs.  A matching document always
    has a slug field, so the test for an empty document never turns a match
    into a 404. *)
Theorem get_post_first_match (st : Store.store) (slug : string) :
  (get_post (Some st) slug = Raise (HTTPException 404 "Post not found")
   ↔ Forall (λ d, Store.field_eq "slug" slug d = false) (Store.docs st)) ∧
  (∀ d, get_post (Some st) slug = Ok d ↔
        ∃ d0 before after,
          Store.docs st = before ++ d0 :: after ∧
          Forall (λ d', Store.field_eq "slug" slug d' = false) before ∧
          Store.field_eq "slug" slug d0 = true ∧
          d = delete "_id"%string d0) ∧
  (∀ d, get_post (Some st) slug = Ok d → d !! "_id"%string = None) ∧
  (∀ e, get_post (Some st) slug = Raise e → e = HTTPException 404 "Post not found").
Proof.
  pose proof (get_post_cases st slug) as Hcases.
  destruct (Store.find_one (Store.field_eq "slug" slug) st) as [d0|] eqn:Hfind.
  - destruct Hcases as (Hm & Hin & Hget). rewrite Hget.
    unfold Store.find_one, Store.find in Hfind.
    apply head_filter_split in Hfind as (before & after & Hdocs & Hbefore & _).
    assert (Forall (λ d', Store.field_eq "slug" slug d' = false) before) as Hb.
    { eapply Forall_impl; [exact Hbefore |]. intros d' Hd'. simpl in Hd'.
      by destruct (Store.field_eq "slug" slug d'). }
    split_and!.
    + split; [done |]. intros Hall. rewrite Forall_forall in Hall.
      rewrite (Hall d0 Hin) in Hm. done.
    + intros d. split.
      * intros [= <-]. by exists d0, before, after.
      * intros (d1 & b1 & a1 & Hdocs1 & Hb1 & Hm1 & ->). f_equal. f_equal.
        rewrite Hdocs in Hdocs1.
        by apply (first_match_unique (Store.field_eq "slug" slug)
                    before b1 after a1 d0 d1).
    + intros d [= <-]. by rewrite lookup_delete_eq.
    + intros e [=].
  - destruct Hcases as [Hall Hget]. rewrite Hget. split_and!.
    + done.
    + intros d. split; [done |].
      intros (d0 & before & after & Hdocs & _ & Hm & _).
      rewrite Forall_forall in Hall. rewrite Hall in Hm; [done |].
      rewrite Hdocs. set_solver.
    + done.
    + by intros e [= <-].
Qed.

(** ** Pages of a listing *)

Section paging_extras.
Import Store.

(** A validated request on a store in good order, with a skip the driver
    can send, spelled out. *)
Lemma list_posts_valid_ok (st : store) (page limit : Z) (test : doc → bool) :
  store_wf st → 1 ≤ page → 1 ≤ limit ≤ 50 → (page - 1) * limit ≤ int64_max →
  ∃ items,
    list_posts_query st page limit test
    = Some (Ok {| resp_page := page;
                  resp_limit := limit;
                  resp_total := Z.of_nat (length (find test st));
                  resp_pages := page_count (Z.of_nat (length (find test st))) limit;
                  resp_items := items |}) ∧
    Forall2 summary_of
      (take (Z.to_nat limit)
         (drop (Z.to_nat ((page - 1) * limit)) (sort_created_desc (find test st))))
      items.
Proof.
  intros [Hst _] Hpage Hlimit Hskip.
  assert (limit ≤ int64_max) as Hfit by (unfold int64_max; lia).
  destruct (list_posts_query_ok st page limit test Hst Hpage ltac:(lia) Hskip Hfit)
    as (items & Hquery & Hitems).
  exists items. split; [done |].
  unfold Store.limit, skip in Hitems.
  by rewrite bool_decide_eq_false_2, Z.abs_eq in Hitems by lia.
Qed.

Lemma list_posts_valid_as_query (st : store) (page limit : Z)
    (q tag : option string) test :
  1 ≤ page → 1 ≤ limit ≤ 50 →
  filter_test (build_filter q tag) = Some test →
  list_posts (Some st) page limit q tag = list_posts_query st page limit test.
Proof.
  intros Hpage Hlimit Htest.
  destruct (list_posts_as_query st page limit q tag test Htest) as [_ ->].
  by rewrite !bool_decide_eq_true_2 by lia.
Qed.


Lemma length_sort_created_desc (l : list doc) :
  length (sort_created_desc l) = length l.
Proof. by rewrite sort_created_desc_perm. Qed.



End paging_extras.

(** X11.  Whatever the filter, the number of items on a page of a validated
    request whose skip the driver can send is [limit], or what is left of
    the matches after the pages before it, or nothing:
    [min(limit, max(0, total - (page-1)*limit))].  So a page is empty
    exactly when it lies beyond the reported number of pages, and every page
    before the last one is full. *)
Theorem page_item_count (st : Store.store) (page limit : Z) (filter_q : doc → bool) :
  store_wf st → 1 ≤ page → 1 ≤ limit ≤ 50 →
  (page - 1) * limit ≤ Store.int64_max →
  (∀ q tag,
     Store.filter_test (build_filter q tag) = Some filter_q →
     list_posts (Some st) page limit q tag = list_posts_query st page limit filter_q) ∧
  ∃ r,
    list_posts_query st page limit filter_q = Some (Ok r) ∧
    Z.of_nat (length (resp_items r))
    = limit `min` (0 `max` (resp_total r - (page - 1) * limit)) ∧
    (resp_items r = [] ↔ resp_pages r < page) ∧
    (page < resp_pages r → Z.of_nat (length (resp_items r)) = limit).
Proof.
  intros Hwf Hpage Hlimit Hskip. split.
  { intros q tag Htest. by apply list_posts_valid_as_query. }
  destruct (list_posts_valid_ok st page limit filter_q Hwf Hpage Hlimit Hskip)
    as (items & Hresp & Hitems).
  eexists. split; [exact Hresp |]. simpl.
  apply Forall2_length in Hitems.
  rewrite length_take, length_drop, length_sort_created_desc in Hitems.
  set (n := length (Store.find filter_q st)) in *.
  pose proof (page_count_ceiling (Z.of_nat n) limit ltac:(lia)) as [Hlo Hhi].
  set (P := page_count (Z.of_nat n) limit) in *.
  assert (Z.of_nat (length items)
          = limit `min` (0 `max` (Z.of_nat n - (page - 1) * limit))) as Hlen.
  { rewrite <-Hitems. nia. }
  split_and!.
  - done.
  - rewrite <-length_zero_iff_nil. split; intros H; nia.
  - intros Hlt. nia.
Qed.

Lemma page_item_count_witness :
  (∀ q tag,
     Store.filter_test (build_filter q tag) = Some (λ _, true) →
     list_posts (Some probe_store) 2 10 q tag
     = list_posts_query probe_store 2 10 (λ _, true)) ∧
  ∃ r,
    list_posts_query probe_store 2 10 (λ _, true) = Some (Ok r) ∧
    Z.of_nat (length (resp_items r))
    = 10 `min` (0 `max` (resp_total r - (2 - 1) * 10)) ∧
    (resp_items r = [] ↔ resp_pages r < 2) ∧
    (2 < resp_pages r → Z.of_nat (length (resp_items r)) = 10).
Proof.
  apply (page_item_count probe_store 2 10 (λ _, true)).
  - apply (bool_decide_unpack _). vm_compute. exact I.
  - lia.
  - lia.
  - vm_compute. discriminate.
Defined.



(** X13.  Whatever the filter, a validated request that matches nothing
    reports a total of 0, 0 pages (not 1) and no items; and 0 pages are
    reported only then. *)
Theorem no_match_no_pages (st : Store.store) (page limit : Z) (filter_q : doc → bool) :
  store_wf st → 1 ≤ page → 1 ≤ limit ≤ 50 →
  (page - 1) * limit ≤ Store.int64_max →
  (∀ q tag,
     Store.filter_test (build_filter q tag) = Some filter_q →
     list_posts (Some st) page limit q tag = list_posts_query st page limit filter_q) ∧
  ∃ r,
    list_posts_query st page limit filter_q = Some (Ok r) ∧
    (resp_total r = 0 ↔ Forall (λ d, filter_q d = false) (Store.docs st)) ∧
    (resp_pages r = 0 ↔ resp_total r = 0) ∧
    (resp_total r = 0 → resp_items r = []).
Proof.
  intros Hwf Hpage Hlimit Hskip. split.
  { intros q tag Htest. by apply list_posts_valid_as_query. }
  destruct (list_posts_valid_ok st page limit filter_q Hwf Hpage Hlimit Hskip)
    as (items & Hresp & Hitems).
  eexists. split; [exact Hresp |]. simpl.
  pose proof (page_count_ceiling (Z.of_nat (length (Store.find filter_q st))) limit
                ltac:(lia)) as [Hlo Hhi].
  split_and!.
  - unfold Store.find. split.
    + intros Hz.
      assert (filter (λ d, filter_q d = true) (Store.docs st) = []) as Hnil.
      { apply length_zero_iff_nil. lia. }
      apply Forall_forall. intros d Hd.
      destruct (filter_q d) eqn:Ht; [| done].
      assert (d ∈ filter (λ d, filter_q d = true) (Store.docs st)) as Hin
        by by apply list_elem_of_filter.
      rewrite Hnil in Hin. by apply elem_of_nil in Hin.
    + intros Hall. rewrite Forall_forall in Hall.
      destruct (filter (λ d, filter_q d = true) (Store.docs st)) as [|d l] eqn:Hf;
        [done |].
      assert (d ∈ filter (λ d, filter_q d = true) (Store.docs st)) as Hin
        by (rewrite Hf; by left).
      apply list_elem_of_filter in Hin as [Ht Hd]. rewrite (Hall d Hd) in Ht. done.
  - split; intros H; nia.
  - intros Hz. apply Forall2_length in Hitems.
    rewrite length_take, length_drop, length_sort_created_desc in Hitems.
    apply length_zero_iff_nil. lia.
Qed.

Lemma no_match_no_pages_witness :
  (∀ q tag,
     Store.filter_test (build_filter q tag) = Some (λ _, false) →
     list_posts (Some probe_store) 1 12 q tag
     = list_posts_query probe_store 1 12 (λ _, false)) ∧
  ∃ r,
    list_posts_query probe_store 1 12 (λ _, false) = Some (Ok r) ∧
    (resp_total r = 0 ↔ Forall (λ d, (λ _ : doc, false) d = false) (Store.docs probe_store)) ∧
    (resp_pages r = 0 ↔ resp_total r = 0) ∧
    (resp_total r = 0 → resp_items r = []).
Proof.
  apply (no_match_no_pages probe_store 1 12 (λ _, false)).
  - apply (bool_decide_unpack _). vm_compute. exact I.
  - lia.
  - lia.
  - vm_compute. discriminate.
Defined.

(** ** The diagnostic report *)

Section health_facts.
Import Health.

Lemma take_chars_prefix (n : nat) (s : string) :
  ∃ rest, s = take_chars n s +:+ rest ∧
          match rest with
          | String c _ => is_continuation c = false
          | EmptyString => True
          end.
Proof.
  revert n. induction s as [|c s IH]; intros n; simpl.
  - by exists ""%string.
  - destruct (is_continuation c) eqn:Hc.
    + destruct (IH n) as (rest & Hrest & Hcut). exists rest.
      split; [| done]. rewrite Hrest at 1. reflexivity.
    + destruct n as [|n].
      * exists (String c s). by rewrite Hc.
      * destruct (IH n) as (rest & Hrest & Hcut). exists rest.
        split; [| done]. rewrite Hrest at 1. reflexivity.
Qed.

Lemma char_count_take_chars (n : nat) (s : string) :
  char_count (take_chars n s) = (n `min` char_count s)%nat.
Proof.
  revert n. induction s as [|c s IH]; intros n; simpl.
  - lia.
  - destruct (is_continuation c) eqn:Hc; simpl.
    + by rewrite Hc, IH.
    + destruct n as [|n]; simpl; [done |]. by rewrite Hc, IH.
Qed.

End health_facts.

(** X14.  The report never lists more than ten collections: it lists the
    first ten names the database gives, in the same order, or all of them
    when there are fewer; and it lists none when there is no database or
    when asking for the names fails. *)
Theorem report_collections_bounded (db : option Health.database)
    (database_url : option string) :
  ∃ l,
    Health.test_database db database_url !! "collections"%string = Some (VStrList l) ∧
    (length l ≤ 10)%nat ∧
    match db with
    | Some handle =>
        match Health.list_collection_names handle with
        | Health.Names collections =>
            l `prefix_of` collections ∧ length l = (10 `min` length collections)%nat
        | Health.Raises _ => l = []
        end
    | None => l = []
    end.
Proof.
  unfold Health.test_database. destruct db as [handle|].
  - destruct (Health.list_collection_names handle) as [collections | e].
    + exists (take 10 collections). split_and!.
      * reflexivity.
      * rewrite length_take. lia.
      * apply prefix_take.
      * apply length_take.
    + exists []. split_and!; [reflexivity | simpl; lia | done].
  - exists []. split_and!; [reflexivity | simpl; lia | done].
Qed.

(** X15.  The report always has the same six entries and says the backend
    is running.  It says "Connected" exactly when there is a database
    handle, gives the database name then and null otherwise, marks the URL
    as set exactly when the environment variable holds a non-empty value,
    and says "Connected & Working" exactly when the collection names could
    be read.  When reading them fails, the message carries the beginning of
    the error text: its first 50 characters, or all of it when it is
    shorter, never cut inside a character. *)
Theorem report_status (db : option Health.database) (database_url : option string) :
  let response := Health.test_database db database_url in
  dom response
  = ({[ "backend"; "database"; "database_url"; "database_name"; "connection_status";
        "collections" ]} : gset string)%string ∧
  response !! "backend"%string = Some (VStr "✅ Running") ∧
  (response !! "connection_status"%string = Some (VStr "Connected") ↔ is_Some db) ∧
  response !! "database_name"%string
  = Some (match db with Some handle => VStr (Health.name handle) | None => VNull end) ∧
  (response !! "database_url"%string = Some (VStr "✅ Set")
   ↔ is_Some db ∧ ∃ u, database_url = Some u ∧ u ≠ ""%string) ∧
  (response !! "database"%string = Some (VStr "✅ Connected & Working")
   ↔ ∃ handle collections,
       db = Some handle ∧ Health.list_collection_names handle = Health.Names collections) ∧
  (∀ handle e,
     db = Some handle → Health.list_collection_names handle = Health.Raises e →
     ∃ shown rest,
       response !! "database"%string
       = Some (VStr ("⚠️  Connected but Error: " +:+ shown)) ∧
       e = shown +:+ rest ∧
       Health.char_count shown = (50 `min` Health.char_count e)%nat ∧
       match rest with
       | String c _ => Health.is_continuation c = false
       | EmptyString => True
       end).
Proof.
  cbv zeta. unfold Health.test_database.
  destruct db as [handle|].
  - split_and!.
    + by destruct (Health.list_collection_names handle).
    + by destruct (Health.list_collection_names handle).
    + split; [by eexists |]. intros _.
      by destruct (Health.list_collection_names handle).
    + by destruct (Health.list_collection_names handle).
    + assert (Health.test_database (Some handle) database_url !! "database_url"%string
              = Some (VStr (Health.url_mark database_url))) as Hurl.
      { unfold Health.test_database.
        by destruct (Health.list_collection_names handle). }
      unfold Health.test_database in Hurl. rewrite Hurl. clear Hurl.
      unfold Health.url_mark, truthy. destruct database_url as [u|].
      * case_bool_decide as Hu.
        -- split; [intros [=] |]. intros [_ (u' & [= <-] & Hne)]. done.
        -- split; [| done]. intros _. split; [by eexists |]. by exists u.
      * split; [intros [=] |]. intros [_ (u & [=] & _)].
    + destruct (Health.list_collection_names handle) as [collections | e] eqn:Hl.
      * split; [| done]. intros _. by exists handle, collections.
      * split.
        -- rewrite lookup_insert_eq. intros [= Habs].
        -- intros (h & c & [= <-] & Hc). congruence.
    + intros h e [= <-] He. rewrite He. rewrite lookup_insert_eq.
      destruct (take_chars_prefix 50 e) as (rest & Hrest & Hcut).
      exists (Health.take_chars 50 e), rest.
      split_and!; [done | done | apply char_count_take_chars | done].
  - split_and!; try reflexivity.
    + split; [intros [=] | by intros [? [=]]].
    + split; [intros [=] | by intros [[? [=]] _]].
    + split; [intros [=] | by intros (? & ? & [=] & _)].
    + intros h e [=].
Qed.

(** A cut after a two-byte character keeps both of its bytes. *)
Example report_cuts_between_characters :
  Health.take_chars 2 "aéb" = "aé"%string ∧
  Health.char_count "aéb" = 3%nat ∧ String.length "aéb" = 4%nat.
Proof. by vm_compute. Qed.

(** ** Index creation at start-up *)

Section index_facts.
Import Indexes.

Lemma settled_app (cat ext : list index) ks uniq :
  settled cat ks uniq → settled (cat ++ ext) ks uniq.
Proof.
  intros (i & ix & Hfind & Hu). exists i, ix. split; [| done].
  by apply list_find_app_l.
Qed.

Lemma create_index_settled (c : collection) ks uniq :
  settled (catalogue c) ks uniq → create_index c ks uniq = inr c.
Proof.
  intros (i & ix & Hfind & Hu). unfold create_index. rewrite Hfind.
  by rewrite bool_decide_eq_true_2.
Qed.

Lemma create_index_success (c c' : collection) ks uniq :
  create_index c ks uniq = inr c' →
  docs c' = docs c ∧
  (∃ ext, catalogue c' = catalogue c ++ ext) ∧
  settled (catalogue c') ks uniq.
Proof.
  unfold create_index.
  destruct (list_find _ (catalogue c)) as [[i ix]|] eqn:Hfind.
  - case_bool_decide as Hu; [| done]. intros [= <-].
    split_and!; [done | exists []; by rewrite app_nil_r | by exists i, ix].
  - destruct (existsb _ _); [done |].
    destruct (uniq && _); [done |]. intros [= <-]. simpl.
    split_and!; [done | by eexists |].
    exists (length (catalogue c) + 0)%nat, {| keys := ks; unique := uniq |}.
    split; [| done]. rewrite list_find_app_r by done. simpl.
    rewrite decide_True by done. simpl. do 2 f_equal. lia.
Qed.

Lemma parallel_arrays_single (k : string * Z) (ds : list doc) :
  existsb (parallel_arrays [k]) ds = false.
Proof.
  induction ds as [|d ds IH]; [done |]. simpl. rewrite IH, orb_false_r.
  unfold parallel_arrays. apply bool_decide_eq_false_2.
  rewrite filter_cons, filter_nil. destruct (decide _); simpl; lia.
Qed.

Lemma keys_of_scalar (k : string * Z) (d : doc) :
  is_array (d !! k.1) = false →
  keys_of [k] d = [[default VNull (d !! k.1)]].
Proof.
  simpl. by destruct (d !! k.1) as [[]|].
Qed.

Lemma NoDup_keys_of_slug (ds : list doc) :
  Forall (λ d, is_array (d !! "slug"%string) = false) ds →
  NoDup (ds ≫= keys_of [("slug"%string, 1)]) ↔ NoDup (Store.slug_key <$> ds).
Proof.
  intros Hds.
  assert (ds ≫= keys_of [("slug"%string, 1)]
          = (λ v, [v]) <$> (Store.slug_key <$> ds)) as ->.
  { induction Hds as [|d ds Hd _ IH]; [done |].
    rewrite bind_cons, IH.
    by rewrite (keys_of_scalar ("slug"%string, 1) d Hd). }
  apply (NoDup_fmap (λ v : value, [v])).
Qed.

End index_facts.

(** X16.  Running [ensure_indexes] again changes nothing: when it succeeds,
    it leaves the documents alone, keeps the indexes that were there and
    has the unique index on [slug] and the three others in place, and a
    second run on the result succeeds and returns that same result. *)
Theorem ensure_indexes_idempotent (c c' : Indexes.collection) :
  Indexes.ensure_indexes (Some c) = inr (Some c') →
  Indexes.ensure_indexes (Some c') = inr (Some c') ∧
  Indexes.docs c' = Indexes.docs c ∧
  (∃ ext, Indexes.catalogue c' = Indexes.catalogue c ++ ext) ∧
  Forall (λ ix, Indexes.settled (Indexes.catalogue c')
                  (Indexes.keys ix) (Indexes.unique ix)) Indexes.wanted.
Proof.
  unfold Indexes.ensure_indexes at 1.
  destruct (Indexes.create_index c _ _) as [|c1] eqn:H1; [done |].
  destruct (Indexes.create_index c1 _ _) as [|c2] eqn:H2; [done |].
  destruct (Indexes.create_index c2 _ _) as [|c3] eqn:H3; [done |].
  destruct (Indexes.create_index c3 _ _) as [|c4] eqn:H4; [done |].
  intros [= <-].
  apply create_index_success in H1 as (D1 & [e1 E1] & S1).
  apply create_index_success in H2 as (D2 & [e2 E2] & S2).
  apply create_index_success in H3 as (D3 & [e3 E3] & S3).
  apply create_index_success in H4 as (D4 & [e4 E4] & S4).
  assert (Indexes.settled (Indexes.catalogue c4) [("slug"%string, 1)] true) as T1.
  { rewrite E4, E3, E2. by do 3 apply settled_app. }
  assert (Indexes.settled (Indexes.catalogue c4) [("title"%string, 1)] false) as T2.
  { rewrite E4, E3. by do 2 apply settled_app. }
  assert (Indexes.settled (Indexes.catalogue c4) [("tags"%string, 1)] false) as T3.
  { rewrite E4. by apply settled_app. }
  split_and!.
  - unfold Indexes.ensure_indexes.
    by rewrite !create_index_settled.
  - congruence.
  - exists (e1 ++ e2 ++ e3 ++ e4). rewrite E4, E3, E2, E1. by rewrite <-!app_assoc.
  - unfold Indexes.wanted. by repeat constructor.
Qed.

Lemma ensure_indexes_idempotent_witness :
  let c := {| Indexes.docs := [probe_post]; Indexes.catalogue := [] |} in
  let c' := {| Indexes.docs := [probe_post]; Indexes.catalogue := Indexes.wanted |} in
  Indexes.ensure_indexes (Some c') = inr (Some c') ∧
  Indexes.docs c' = Indexes.docs c ∧
  (∃ ext, Indexes.catalogue c' = Indexes.catalogue c ++ ext) ∧
  Forall (λ ix, Indexes.settled (Indexes.catalogue c')
                  (Indexes.keys ix) (Indexes.unique ix)) Indexes.wanted.
Proof.
  apply (ensure_indexes_idempotent
           {| Indexes.docs := [probe_post]; Indexes.catalogue := [] |}
           {| Indexes.docs := [probe_post]; Indexes.catalogue := Indexes.wanted |}).
  vm_compute. reflexivity.
Defined.

(** X17.  On a collection without indexes in which no slug is an array,
    [ensure_indexes] succeeds exactly when no two documents share a slug (a
    missing slug counting as null); it then leaves the four indexes, the
    unique one on [slug] first.  When two documents share a slug, building
    the unique index fails with a duplicate-key error and none of the other
    indexes is created. *)
Theorem ensure_indexes_fresh (ds : list doc) :
  Forall (λ d, Indexes.is_array (d !! "slug"%string) = false) ds →
  Indexes.ensure_indexes (Some {| Indexes.docs := ds; Indexes.catalogue := [] |})
  = if bool_decide (NoDup (Store.slug_key <$> ds))
    then inr (Some {| Indexes.docs := ds; Indexes.catalogue := Indexes.wanted |})
    else inl Indexes.DuplicateKeyError.
Proof.
  intros Hds.
  unfold Indexes.ensure_indexes, Indexes.create_index at 1. simpl.
  rewrite parallel_arrays_single.
  rewrite (bool_decide_ext _ _ (NoDup_keys_of_slug ds Hds)).
  destruct (bool_decide (NoDup (Store.slug_key <$> ds))); simpl; [| done].
  unfold Indexes.create_index. simpl.
  rewrite parallel_arrays_single. simpl.
  rewrite parallel_arrays_single. simpl.
  by rewrite parallel_arrays_single.
Qed.

Lemma ensure_indexes_fresh_witness :
  let ds : list doc := [probe_post; ∅] in
  Forall (λ d, Indexes.is_array (d !! "slug"%string) = false) ds ∧
  Indexes.ensure_indexes (Some {| Indexes.docs := ds; Indexes.catalogue := [] |})
  = if bool_decide (NoDup (Store.slug_key <$> ds))
    then inr (Some {| Indexes.docs := ds; Indexes.catalogue := Indexes.wanted |})
    else inl Indexes.DuplicateKeyError.
Proof.
  assert (Forall (λ d, Indexes.is_array (d !! "slug"%string) = false)
            [probe_post; ∅]) as Hds.
  { repeat constructor. }
  split; [exact Hds |].
  exact (ensure_indexes_fresh [probe_post; ∅] Hds).
Defined.

(** A slug that is an array is indexed under each of its elements: it
    collides with a post whose slug is one of them. *)
Example ensure_indexes_array_slug :
  let d1 : doc := {[ "slug"%string := VStrList ["a"; "b"]%string ]} in
  let d2 : doc := {[ "slug"%string := VStr "b" ]} in
  Store.slug_key d1 ≠ Store.slug_key d2 ∧
  Indexes.ensure_indexes (Some {| Indexes.docs := [d1; d2]; Indexes.catalogue := [] |})
  = inl Indexes.DuplicateKeyError.
Proof. split; [done | by vm_compute]. Qed.

(** ** Case of the search term *)

Section case_facts.
Import Text Regex.

Lemma matches_literal_nonempty (q : string) (d : doc) :
  q ≠ ""%string → is_literal q = true →
  matches_listing (Some q) None d ↔ search_hit q d.
Proof.
  intros Hq Hlit. unfold matches_listing, build_filter.
  rewrite truthy_nonempty by done. simpl.
  rewrite (compile_literal q Hlit). simpl. unfold search_hit.
  rewrite <-!(field_regex_literal _ q d). split.
  - intros (test & [= <-] & Ht). simpl in Ht.
    rewrite andb_true_r, orb_false_r, !orb_true_iff in Ht. tauto.
  - intros Hany. eexists. split; [done |]. simpl.
    rewrite andb_true_r, orb_false_r, !orb_true_iff. tauto.
Qed.

Lemma lower_empty (s : string) : lower s = ""%string → s = ""%string.
Proof. by destruct s. Qed.

End case_facts.

(** X18.  The case of the letters of a search term does not matter: two
    terms without metacharacters that are equal up to the case of their
    letters select the same posts. *)
Theorem search_ignores_case (q q' : string) (d : doc) :
  Regex.is_literal q = true → Regex.is_literal q' = true →
  Text.lower q = Text.lower q' →
  matches_listing (Some q) None d ↔ matches_listing (Some q') None d.
Proof.
  intros Hlit Hlit' Heq.
  destruct (decide (q = ""%string)) as [-> | Hq].
  { symmetry in Heq. apply lower_empty in Heq. by subst q'. }
  assert (q' ≠ ""%string) as Hq'.
  { intros ->. by apply lower_empty in Heq. }
  rewrite !matches_literal_nonempty by done.
  unfold search_hit, contains_ci, Text.ci_substring. by rewrite Heq.
Qed.

Lemma search_ignores_case_witness :
  matches_listing (Some "AI-Gen"%string) None probe_post
  ↔ matches_listing (Some "ai-gEN"%string) None probe_post.
Proof.
  apply (search_ignores_case "AI-Gen" "ai-gEN" probe_post); reflexivity.
Defined.
